(** * HireLoop preprocessing: text cleaning, section splitting, skill
      detection, the resume and job extractors and the parser manager.

    A shallow embedding of [utils.py], [job_parser.py], [resume_parser.py]
    and [manager.py].  A Python [str] is a list of Unicode code points;
    the few string methods and the fragment of [re] the program uses are
    written out as functions on such lists. *)

From Stdlib Require Import Strings.String Strings.Ascii.
From Stdlib Require Import List NArith Bool Arith Lia Sorted.
Import ListNotations.
Local Open Scope N_scope.
Local Open Scope list_scope.

Set Implicit Arguments.

(** ** Code points and string literals *)

Definition text := list N.

(** A literal of the source, read as its code points (ASCII literals only;
    the two non-ASCII characters of the source are [NBSP] and [BULLET]). *)
Definition cp (s : string) : text := map N_of_ascii (list_ascii_of_string s).

Definition NL : N := 10.
Definition CR : N := 13.
Definition SP : N := 32.
Definition NBSP : N := 160.     (* "\xa0" *)
Definition BULLET : N := 8226.  (* U+2022 *)

Definition in_range (lo hi c : N) : bool := (lo <=? c) && (c <=? hi).

(** [str.isspace] on one code point, which is also [\s] of a [str]
    pattern: the code points CPython lists as white space. *)
Definition isspace (c : N) : bool :=
  in_range 9 13 c || in_range 28 32 c || (c =? 133) || (c =? 160)
  || (c =? 5760) || in_range 8192 8202 c || (c =? 8232) || (c =? 8233)
  || (c =? 8239) || (c =? 8287) || (c =? 12288).

Definition is_ascii (c : N) : bool := c <? 128.
Definition ascii_isupper (c : N) : bool := in_range 65 90 c.
Definition ascii_islower (c : N) : bool := in_range 97 122 c.
Definition ascii_isalpha (c : N) : bool := ascii_isupper c || ascii_islower c.
Definition ascii_isdigit (c : N) : bool := in_range 48 57 c.
Definition ascii_lower (c : N) : N := if ascii_isupper c then c + 32 else c.

(** The Unicode character database is not part of the repository.  The
    ASCII rows are written out above; the rows of the other code points
    are taken as a parameter. *)
Class UnicodeData := {
  (* [str.lower] of a line that holds a non-ASCII code point *)
  u_lower : text -> text;
  (* [str.isalpha], [str.isupper], [str.isdigit] of a non-ASCII code point *)
  u_isalpha : N -> bool;
  u_isupper : N -> bool;
  u_isdigit : N -> bool;
  (* [\d] and the alphanumeric part of [\w] for a non-ASCII code point *)
  u_isdecimal : N -> bool;
  u_isalnum : N -> bool;
  (* [re.IGNORECASE]: does the non-ASCII code point (second argument)
     match the pattern character (first argument)? *)
  u_ci_eq : N -> N -> bool
}.

(** The database restricted to ASCII: nothing outside ASCII is a letter,
    a digit or cased. *)
Definition ascii_only : UnicodeData := {|
  u_lower := map ascii_lower;
  u_isalpha := fun _ => false;
  u_isupper := fun _ => false;
  u_isdigit := fun _ => false;
  u_isdecimal := fun _ => false;
  u_isalnum := fun _ => false;
  u_ci_eq := N.eqb
|}.

(** ** String methods *)

Module Str.

Definition eqb (a b : text) : bool :=
  if list_eq_dec N.eq_dec a b then true else false.

Definition is_empty (s : text) : bool :=
  match s with [] => true | _ => false end.


Definition isalpha {U : UnicodeData} (c : N) : bool :=
  if is_ascii c then ascii_isalpha c else u_isalpha c.
Definition isupper {U : UnicodeData} (c : N) : bool :=
  if is_ascii c then ascii_isupper c else u_isupper c.
Definition isdigit {U : UnicodeData} (c : N) : bool :=
  if is_ascii c then ascii_isdigit c else u_isdigit c.

(** [s.startswith(p)] *)
Fixpoint startswith (p s : text) : bool :=
  match p, s with
  | [], _ => true
  | a :: p', b :: s' => (a =? b) && startswith p' s'
  | _ :: _, [] => false
  end.

(** [p in s] *)
Fixpoint contains (p s : text) : bool :=
  startswith p s || match s with [] => false | _ :: s' => contains p s' end.

Fixpoint drop_while (f : N -> bool) (s : text) : text :=
  match s with
  | [] => []
  | c :: s' => if f c then drop_while f s' else s
  end.

(** [s.strip(chars)], with the set of characters as a predicate, and
    [s.strip()] *)
Definition strip_with (f : N -> bool) (s : text) : text :=
  rev (drop_while f (rev (drop_while f s))).
Definition strip (s : text) : text := strip_with isspace s.

Definition mem (cs : text) (c : N) : bool := existsb (N.eqb c) cs.

(** [s.split(sep)] for a one-character separator: the last component
    first, then the others *)
Fixpoint split_go (sep : N) (s : text) : text * list text :=
  match s with
  | [] => ([], [])
  | c :: s' =>
      let (cur, rest) := split_go sep s' in
      if c =? sep then ([], cur :: rest) else (c :: cur, rest)
  end.
Definition split (sep : N) (s : text) : list text :=
  let (cur, rest) := split_go sep s in cur :: rest.

(** [s.split()]: the maximal runs of non-space characters *)
Fixpoint words_go (cur : text) (s : text) : list text :=
  match s with
  | [] => match cur with [] => [] | _ => [rev cur] end
  | c :: s' =>
      if isspace c
      then match cur with [] => words_go [] s' | _ => rev cur :: words_go [] s' end
      else words_go (c :: cur) s'
  end.
Definition words (s : text) : list text := words_go [] s.

(** [sep.join(parts)] *)
Fixpoint join (sep : text) (parts : list text) : text :=
  match parts with
  | [] => []
  | [p] => p
  | p :: ps => p ++ sep ++ join sep ps
  end.

(** [s.lower()].  Lower-casing maps each character by itself, but for
    the Greek capital sigma, whose form depends on the cased letters
    around it, looked for across case-ignorable characters only; a
    newline is neither, so each line is lowered by itself. *)
Definition lower_line {U : UnicodeData} (s : text) : text :=
  if forallb is_ascii s then map ascii_lower s else u_lower s.
Definition lower {U : UnicodeData} (s : text) : text :=
  join [NL] (map lower_line (split NL s)).

(** [s.replace(old, new)] for a non-empty [old]: scan from the left, and
    after a replacement skip the rest of the occurrence *)
Fixpoint replace_go (old new : text) (skip : nat) (s : text) : text :=
  match s with
  | [] => []
  | c :: s' =>
      match skip with
      | S n => replace_go old new n s'
      | O => if startswith old s
             then new ++ replace_go old new (pred (length old)) s'
             else c :: replace_go old new 0 s'
      end
  end.
Definition replace (old new s : text) : text := replace_go old new 0 s.

(** [s[:n]] and [l[:n]] are [firstn]. *)

(** Comparison of two strings, code point by code point *)
Fixpoint compare (a b : text) : comparison :=
  match a, b with
  | [], [] => Eq
  | [], _ :: _ => Lt
  | _ :: _, [] => Gt
  | x :: a', y :: b' =>
      match x ?= y with Eq => compare a' b' | o => o end
  end.
Definition lt (a b : text) : Prop := compare a b = Lt.

End Str.

(** ** utils.py: cleaning *)

(** [WHITESPACE_RE.sub(" ", s)] with [WHITESPACE_RE = \s+]: every maximal
    run of white space becomes one space.  [in_run] says that the
    previous character was white space. *)
Fixpoint sub_whitespace_go (in_run : bool) (s : text) : text :=
  match s with
  | [] => []
  | c :: s' =>
      if isspace c
      then if in_run then sub_whitespace_go true s'
           else SP :: sub_whitespace_go true s'
      else c :: sub_whitespace_go false s'
  end.
Definition WHITESPACE_RE_sub (s : text) : text := sub_whitespace_go false s.

Definition clean_text (txt : text) : text :=
  if Str.is_empty txt then []
  else
    let normalized :=
      Str.replace [CR] [NL] (Str.replace [CR; NL] [NL] (Str.replace [NBSP] [SP] txt)) in
    let normalized := WHITESPACE_RE_sub normalized in
    Str.strip normalized.

(** ** The fragment of [re] the program uses

    A backtracking matcher in continuation-passing style, in the order
    Python tries things: alternatives left to right, repetitions greedy,
    [search] leftmost.  The state is the rest of the subject, the
    character before it ([None] at the start of the string) and the
    text of group 1 (no pattern of the program has a second group). *)

Module Re.

Record mstate := MState { prev : option N; rest : text; group1 : option text }.

Inductive regex :=
| Eps
| Cls (p : N -> bool)                           (* one character of a class *)
| Seq (a b : regex)
| Alt (a b : regex)                             (* a|b *)
| Rep (p : N -> bool) (lo : nat) (hi : option nat)  (* [p]{lo,hi}, greedy *)
| Grp (a : regex)                               (* ( a ), group 1 *)
| Bos                                           (* ^ *)
| Eos                                           (* $ *)
| NotBehind (p : N -> bool)                     (* (?<![p]) *)
| NotAhead (p : N -> bool).                     (* (?![p]) *)

Definition Opt (a : regex) : regex := Alt a Eps.          (* (?:a)? *)
Definition Star (p : N -> bool) : regex := Rep p 0 None.  (* [p]* *)
Definition Plus (p : N -> bool) : regex := Rep p 1 None.  (* [p]+ *)
Definition Maybe (p : N -> bool) : regex := Rep p 0 (Some 1%nat).  (* [p]? *)
Definition Times (n : nat) (p : N -> bool) : regex := Rep p n (Some n).

Fixpoint seq (rs : list regex) : regex :=
  match rs with
  | [] => Eps
  | [r] => r
  | r :: rs' => Seq r (seq rs')
  end.

Definition chr (a : N) : N -> bool := N.eqb a.
Definition one_of (cs : string) : N -> bool := Str.mem (cp cs).
Definition any_of (ps : list (N -> bool)) (c : N) : bool :=
  existsb (fun p => p c) ps.

(** [\w], [\d], and a pattern character under [re.IGNORECASE] *)
Definition word {U : UnicodeData} (c : N) : bool :=
  if is_ascii c then ascii_isalpha c || ascii_isdigit c || (c =? 95)
  else u_isalnum c.
Definition digit {U : UnicodeData} (c : N) : bool :=
  if is_ascii c then ascii_isdigit c else u_isdecimal c.
Definition ci {U : UnicodeData} (a c : N) : bool :=
  if is_ascii c then ascii_lower a =? ascii_lower c else u_ci_eq a c.
(** [.] without [re.DOTALL], which is also [[^\n]] *)
Definition dot (c : N) : bool := negb (c =? NL).

(** A literal string of the pattern, as [re.escape] gives it *)
Definition lit_with (f : N -> N -> bool) (s : text) : regex :=
  fold_right (fun a r => Seq (Cls (f a)) r) Eps s.
Definition lit (s : string) : regex := lit_with chr (cp s).
Definition lit_i {U : UnicodeData} (s : string) : regex := lit_with ci (cp s).

Section Matcher.
Variable R : Type.

(** Greedy repetition of a class: take as many characters as allowed,
    then give them back one at a time. *)
Fixpoint rep (p : N -> bool) (lo : nat) (hi : option nat)
    (pv : option N) (s : text) (k : option N -> text -> option R) : option R :=
  let stop := match lo with O => k pv s | S _ => None end in
  match s with
  | c :: s' =>
      if p c && match hi with Some O => false | _ => true end
      then match rep p (pred lo) (option_map pred hi) (Some c) s' k with
           | Some r => Some r
           | None => stop
           end
      else stop
  | [] => stop
  end.

Fixpoint run (r : regex) (st : mstate) (k : mstate -> option R) : option R :=
  match r with
  | Eps => k st
  | Cls p =>
      match rest st with
      | c :: s' => if p c then k (MState (Some c) s' (group1 st)) else None
      | [] => None
      end
  | Seq a b => run a st (fun st' => run b st' k)
  | Alt a b =>
      match run a st k with
      | Some r => Some r
      | None => run b st k
      end
  | Rep p lo hi =>
      rep p lo hi (prev st) (rest st) (fun pv s => k (MState pv s (group1 st)))
  | Grp a =>
      run a st (fun st' =>
        k (MState (prev st') (rest st')
             (Some (firstn (length (rest st) - length (rest st')) (rest st)))))
  | Bos => match prev st with None => k st | Some _ => None end
  | Eos =>
      match rest st with
      | [] => k st
      | [c] => if c =? NL then k st else None
      | _ => None
      end
  | NotBehind p =>
      match prev st with
      | Some c => if p c then None else k st
      | None => k st
      end
  | NotAhead p =>
      match rest st with
      | c :: _ => if p c then None else k st
      | [] => k st
      end
  end.

End Matcher.

(** A match object: [m.group(0)] and [m.group(1)] ([None] when the group
    took no part in the match). *)
Record match_obj := Match { group0 : text; group_1 : option text }.

Definition match_at (r : regex) (pv : option N) (s : text) : option match_obj :=
  match run r (MState pv s None) (fun st => Some st) with
  | Some st' =>
      Some (Match (firstn (length s - length (rest st')) s) (group1 st'))
  | None => None
  end.

(** [pattern.match(s)] *)
Definition match_ (r : regex) (s : text) : option match_obj := match_at r None s.

(** [pattern.search(s)]: the first position where the pattern matches *)
Fixpoint search_from (r : regex) (pv : option N) (s : text) : option match_obj :=
  match match_at r pv s with
  | Some m => Some m
  | None =>
      match s with
      | [] => None
      | c :: s' => search_from r (Some c) s'
      end
  end.
Definition search (r : regex) (s : text) : option match_obj := search_from r None s.

Definition is_some {A : Type} (o : option A) : bool :=
  match o with Some _ => true | None => false end.

End Re.

(** ** Exceptions *)

Inductive exn := FileNotFoundError | ValueError | KeyError | AttributeError.

Inductive result (A : Type) :=
| Ok (a : A)
| Raise (e : exn).
Arguments Ok {A} a.
Arguments Raise {A} e.

Definition bind {A B : Type} (m : result A) (f : A -> result B) : result B :=
  match m with
  | Ok a => f a
  | Raise e => Raise e
  end.

Notation "x <- m ;; f" := (bind m (fun x => f))
  (at level 61, m at next level, right associativity).

(** ** Dictionaries of the output

    A [dict] of the program is a list of its items in insertion order;
    its values are the JSON-like values the parsers build. *)

#[warnings="-register-all"]
Inductive value :=
| VNone
| VStr (s : text)
| VList (l : list text)
| VDict (d : list (string * value)).

Definition dict := list (string * value).

Fixpoint lookup {A : Type} (key : string) (d : list (string * A)) : option A :=
  match d with
  | [] => None
  | (k, v) :: d' => if String.eqb k key then Some v else lookup key d'
  end.

(** [d.get(key)] and [d.get(key, default)] *)
Definition get (d : dict) (key : string) (default : value) : value :=
  match lookup key d with Some v => v | None => default end.

Definition opt_value (o : option text) : value :=
  match o with Some s => VStr s | None => VNone end.

(** ** utils.py: regex helpers *)

Section Utils.
Context {U : UnicodeData}.

Import Re.

Definition alnum_ascii (c : N) : bool := ascii_isalpha c || ascii_isdigit c.

(* [A-Za-z0-9._%+-]+@[A-Za-z0-9.-]+\.[A-Za-z]{2,} *)
Definition EMAIL_RE : regex :=
  seq [ Plus (any_of [alnum_ascii; one_of "._%+-"]); Cls (chr 64);
        Plus (any_of [alnum_ascii; one_of ".-"]); Cls (chr 46);
        Rep ascii_isalpha 2 None ].

(* (?:(?:\+?\d{1,3}[\s.-]?)?(?:\(?\d{3}\)?|\d{3})[\s.-]?\d{3}[\s.-]?\d{4}) *)
Definition PHONE_RE : regex :=
  let sep := any_of [isspace; one_of ".-"] in
  seq [ Opt (seq [Maybe (chr 43); Rep digit 1 (Some 3%nat); Maybe sep]);
        Alt (seq [Maybe (chr 40); Times 3 digit; Maybe (chr 41)]) (Times 3 digit);
        Maybe sep; Times 3 digit; Maybe sep; Times 4 digit ].

(* https?://(?:www\.)?linkedin\.com/[\w\-/]+   with re.I *)
Definition profile_re (host : string) : regex :=
  seq [ lit_i "http"; Maybe (ci 115); lit_i "://"; Opt (lit_i "www.");
        lit_i host; lit_i "/"; Plus (any_of [word; one_of "-/"]) ].
Definition LINKEDIN_RE : regex := profile_re "linkedin.com".
Definition GITHUB_RE : regex := profile_re "github.com".

(** [matches = RE.findall(text or ""); return matches[0] if matches else None]:
    none of the four patterns has a group, so the first item of
    [findall] is group 0 of the first match. *)
Definition first_found (r : regex) (txt : text) : option text :=
  match search r txt with
  | Some m => Some (group0 m)
  | None => None
  end.

Definition extract_email (txt : text) : option text := first_found EMAIL_RE txt.
Definition extract_phone (txt : text) : option text := first_found PHONE_RE txt.
Definition extract_linkedin (txt : text) : option text := first_found LINKEDIN_RE txt.
Definition extract_github (txt : text) : option text := first_found GITHUB_RE txt.

(** ** utils.py: skills *)

Definition DEFAULT_SKILLS : list text :=
  map cp
    [ "python"; "java"; "javascript"; "typescript"; "go"; "c++"; "c#"; "ruby";
      "scala"; "rust"; "sql";
      "react"; "node"; "django"; "flask"; "fastapi"; "spring"; "rails";
      "angular"; "vue";
      "pandas"; "numpy"; "scikit-learn"; "tensorflow"; "pytorch"; "spacy"; "nltk";
      "aws"; "gcp"; "azure"; "docker"; "kubernetes"; "terraform"; "git" ]%string.

(** [sorted(set(l))]: the distinct elements of [l] in increasing order *)
Fixpoint insert_uniq (x : text) (l : list text) : list text :=
  match l with
  | [] => [x]
  | y :: l' =>
      match Str.compare x y with
      | Lt => x :: l
      | Eq => l
      | Gt => y :: insert_uniq x l'
      end
  end.
Definition sorted_set (l : list text) : list text := fold_right insert_uniq [] l.

(* [\w+#.] and [\w+-] *)
Definition before_skill : N -> bool := any_of [word; one_of "+#."].
Definition after_skill : N -> bool := any_of [word; one_of "+-"].

(* rf"(?<![\w+#.]){re.escape(skill)}(?![\w+-])" *)
Definition skill_re (skill : text) : regex :=
  seq [ NotBehind before_skill; lit_with chr skill; NotAhead after_skill ].

Definition find_skills (txt : text) (extra_skills : option (list text)) : list text :=
  if Str.is_empty txt then []
  else
    let dictionary :=
      map Str.lower DEFAULT_SKILLS
      ++ match extra_skills with
         | Some extra => map Str.lower extra
         | None => []
         end in
    let text_lower := [SP] ++ Str.lower txt ++ [SP] in
    filter (fun skill => is_some (search (skill_re skill) text_lower))
           (sorted_set dictionary).

(** ** utils.py: sections *)

Definition SECTION_HEADERS : list (string * list text) :=
  [ ("education", map cp ["education"; "academic background"]);
    ("experience", map cp ["experience"; "work experience"; "employment history"]);
    ("skills", map cp ["skills"; "technical skills"; "skills & endorsements"]);
    ("projects", map cp ["projects"; "personal projects"]);
    ("certifications", map cp ["certifications"; "licenses"; "certifications & licenses"]);
    ("responsibilities", map cp ["responsibilities"; "what you'll do"; "what you will do"]);
    ("requirements", map cp ["requirements"; "what you'll need"; "qualifications"])
  ]%string.

(* {h: name for name, hs in SECTION_HEADERS.items() for h in hs} *)
Definition header_map : list (text * string) :=
  flat_map (fun item => map (fun h => (h, fst item)) (snd item)) SECTION_HEADERS.

Fixpoint header_lookup (h : text) (m : list (text * string)) : result string :=
  match m with
  | [] => Raise KeyError
  | (k, v) :: m' => if Str.eqb k h then Ok v else header_lookup h m'
  end.

(* re.compile(rf"^\s*{re.escape(h)}\s*:?$", re.I) *)
Definition header_re (h : text) : regex :=
  seq [ Bos; Star isspace; lit_with ci h; Star isspace; Maybe (chr 58); Eos ].

Definition header_patterns : list (text * regex) :=
  map (fun item => (fst item, header_re (fst item))) header_map.

(** The inner loop: the first header whose pattern matches the line *)
Fixpoint first_header (pats : list (text * regex)) (ln : text) : option text :=
  match pats with
  | [] => None
  | (h, pat) :: pats' =>
      if is_some (match_ pat ln) then Some h else first_header pats' ln
  end.

(** The variables the closure [flush] shares with the loop *)
Record split_state := SplitState {
  sections : list (string * text);
  current_name : string;
  current_lines : list text
}.

Definition flush (st : split_state) : split_state :=
  match current_lines st with
  | [] => st
  | _ :: _ =>
      SplitState
        (sections st ++ [(current_name st, Str.strip (Str.join [NL] (current_lines st)))])
        (current_name st) []
  end.

(** One turn of [for ln in lines].  Every header is a non-empty string,
    so [if matched] is [matched is not None]. *)
Definition split_step (st : split_state) (ln : text) : result split_state :=
  match first_header header_patterns ln with
  | Some matched =>
      let st := flush st in
      name <- header_lookup matched header_map ;;
      Ok (SplitState (sections st) name (current_lines st))
  | None =>
      Ok (SplitState (sections st) (current_name st) (current_lines st ++ [ln]))
  end.

Fixpoint split_loop (st : split_state) (lines : list text) : result split_state :=
  match lines with
  | [] => Ok st
  | ln :: lines' => st' <- split_step st ln ;; split_loop st' lines'
  end.

Definition nonblank (ln : text) : bool := negb (Str.is_empty (Str.strip ln)).

Definition split_sections (txt : text) : result (list (string * text)) :=
  if Str.is_empty txt then Ok [("body"%string, [])]
  else
    let lines := map Str.strip (filter nonblank (Str.split NL txt)) in
    match lines with
    | [] => Ok [("body"%string, [])]
    | _ :: _ =>
        st <- split_loop (SplitState [] "body" []) lines ;;
        let st := flush st in
        match sections st with
        | [] => Ok [("body"%string, txt)]
        | secs => Ok secs
        end
    end.

End Utils.

(** ** The outside world

    The readers of [utils.py] hand the decoding of a file to the file
    system and to [pdfplumber] and [docx2txt], and [_init_nlp] hands the
    named-entity model to [spacy]; none of these is code of the
    repository, so what the three readers, [os.path.splitext] and
    [_init_nlp()] return are parameters.  A reader may raise, and what
    it returns depends on the path alone (a file does not change
    between the two reads of one [parse]); the model, called on a text,
    returns the entities as pairs of [ent.text] and [ent.label_], or
    raises. *)
Class Host := {
  splitext_ext : text -> text;          (* os.path.splitext(path)[1] *)
  read_pdf : text -> result text;
  read_docx : text -> result text;
  read_txt : text -> result text;
  _init_nlp : option (text -> result (list (text * text)))
}.

Section Parsers.
Context {U : UnicodeData} {H : Host}.

Import Re.

Definition _read_any (file_path : text) : result text :=
  let ext := Str.lower (splitext_ext file_path) in
  if Str.eqb ext (cp ".pdf") then read_pdf file_path
  else if Str.eqb ext (cp ".docx") then read_docx file_path
  else if Str.eqb ext (cp ".txt") then read_txt file_path
  else Ok [].

(** [a or b] on strings *)
Definition or_else (a b : text) : text := if Str.is_empty a then b else a.

(** [any(k in ln.lower() for k in keys)] *)
Definition has_keyword (keys : list text) (ln : text) : bool :=
  existsb (fun k => Str.contains k (Str.lower ln)) keys.

(** ** job_parser.py *)

(* (?:Job\s*Title|Title)\s*:?\s*(.+)   with re.I *)
Definition labelled (label : regex) : regex :=
  seq [ label; Star isspace; Maybe (chr 58); Star isspace; Grp (Plus dot) ].
Definition TITLE_RE : regex :=
  labelled (Alt (seq [lit_i "Job"; Star isspace; lit_i "Title"]) (lit_i "Title")).
(* (?:Company|Employer|Organization)\s*:?\s*(.+) *)
Definition COMPANY_RE : regex :=
  labelled (Alt (lit_i "Company") (Alt (lit_i "Employer") (lit_i "Organization"))).
(* (?:Location|Based\s*in)\s*:?\s*(.+) *)
Definition LOCATION_RE : regex :=
  labelled (Alt (lit_i "Location") (seq [lit_i "Based"; Star isspace; lit_i "in"])).
(* ( \d+\+?\s*(?:years|yrs)\s+of\s+experience[^\n]* )   with re.I *)
Definition EXPERIENCE_RE : regex :=
  Grp (seq [ Plus digit; Maybe (chr 43); Star isspace;
             Alt (lit_i "years") (lit_i "yrs"); Plus isspace; lit_i "of";
             Plus isspace; lit_i "experience"; Star dot ]).
(* (Bachelor'?s|Master'?s|Ph\.?D\.|BS|BA|MS|MA)[^\n]*   with re.I *)
Definition EDUCATION_RE : regex :=
  seq [ Grp (Alt (seq [lit_i "Bachelor"; Maybe (chr 39); lit_i "s"])
            (Alt (seq [lit_i "Master"; Maybe (chr 39); lit_i "s"])
            (Alt (seq [lit_i "Ph"; Maybe (chr 46); lit_i "D."])
            (Alt (lit_i "BS") (Alt (lit_i "BA") (Alt (lit_i "MS") (lit_i "MA")))))));
        Star dot ].

(** [m.group(1).strip() if m else None]; [None.strip()] raises. *)
Definition _extract_first_match (r : regex) (txt : text) : result (option text) :=
  match search r txt with
  | Some m =>
      match group_1 m with
      | Some g => Ok (Some (Str.strip g))
      | None => Raise AttributeError
      end
  | None => Ok None
  end.

(** [s.isdigit()] *)
Definition str_isdigit (s : text) : bool :=
  negb (Str.is_empty s) && forallb Str.isdigit s.

Definition _extract_bullets (section_text : text) : list text :=
  let lines :=
    map (Str.strip_with (Str.mem [SP; 45; BULLET; 9]))
        (filter nonblank (Str.split NL section_text)) in
  (* Prefer bullet-like lines *)
  let bullets :=
    filter (fun ln =>
              existsb (fun p => Str.startswith p ln) [[45]; [42]; [BULLET]]
              || str_isdigit (firstn 2 ln))
           lines in
  match bullets with
  | [] => firstn 20 lines
  | _ :: _ => bullets
  end.

Fixpoint first_section (names : list string) (secs : list (string * text)) : text :=
  match secs with
  | [] => []
  | (section_name, section_text) :: secs' =>
      if existsb (String.eqb section_name) names then section_text
      else first_section names secs'
  end.

Definition _find_section (txt : text) (names : list string) : result text :=
  secs <- split_sections txt ;;
  Ok (first_section names secs).

(** "\n".join(ln for ln in text.split("\n") if any(k in ln.lower() for k in keys)) *)
Definition keyword_lines (keys : list string) (txt : text) : text :=
  Str.join [NL] (filter (has_keyword (map cp keys)) (Str.split NL txt)).

(** The body of [extract_job_data] once the file has been read *)
Definition extract_job_text (raw : text) : result dict :=
  let txt := clean_text raw in
  title <- _extract_first_match TITLE_RE txt ;;
  company <- _extract_first_match COMPANY_RE txt ;;
  location <- _extract_first_match LOCATION_RE txt ;;
  responsibilities_sec <- _find_section txt ["responsibilities"%string] ;;
  requirements_sec <- _find_section txt ["requirements"%string] ;;
  (* If sections not found via headers, attempt naive heuristics *)
  let responsibilities_sec :=
    if Str.is_empty responsibilities_sec
    then keyword_lines ["responsibilities"; "you will"; "you'll"]%string txt
    else responsibilities_sec in
  let requirements_sec :=
    if Str.is_empty requirements_sec
    then keyword_lines ["requirements"; "must have"; "qualifications"]%string txt
    else requirements_sec in
  experience_required <- _extract_first_match EXPERIENCE_RE (or_else requirements_sec txt) ;;
  education_required <- _extract_first_match EDUCATION_RE (or_else requirements_sec txt) ;;
  let skills_required := find_skills (or_else requirements_sec [] ++ [NL] ++ txt) None in
  let responsibilities := _extract_bullets responsibilities_sec in
  Ok [ ("title", opt_value title);
       ("company", opt_value company);
       ("skills_required", VList skills_required);
       ("experience_required", opt_value experience_required);
       ("education_required", opt_value education_required);
       ("responsibilities", VList responsibilities);
       ("location", opt_value location);
       ("raw_text", VStr txt) ]%string.

Definition extract_job_data (file_path : text) : result dict :=
  raw <- _read_any file_path ;;
  extract_job_text raw.

(** ** resume_parser.py *)

(** [t[:1].isalpha()] and [t[:1].isupper()] *)
Definition starts_alpha (t : text) : bool :=
  match t with c :: _ => Str.isalpha c | [] => false end.
Definition starts_upper (t : text) : bool :=
  match t with c :: _ => Str.isupper c | [] => false end.

(** The fallback loop of [_guess_name] *)
Fixpoint name_like_line (lines : list text) : option text :=
  match lines with
  | [] => None
  | ln :: lines' =>
      let tokens := Str.words (Str.strip ln) in
      if (1 <? length tokens)%nat && (length tokens <=? 5)%nat
         && forallb starts_alpha tokens
         && (1 <=? length (filter starts_upper tokens))%nat
      then Some (Str.strip ln)
      else name_like_line lines'
  end.

Definition _guess_name (txt : text)
    (nlp_model : option (text -> result (list (text * text)))) : option text :=
  if Str.is_empty txt then None
  else
    let first_chunk := Str.join [NL] (firstn 10 (Str.split NL txt)) in
    let person :=
      match nlp_model with
      | Some nlp =>
          match nlp first_chunk with
          | Ok ents =>
              let people :=
                map (fun ent => Str.strip (fst ent))
                    (filter (fun ent => Str.eqb (snd ent) (cp "PERSON")) ents) in
              match people with
              | p :: _ => Some p
              | [] => None
              end
          | Raise _ => None      (* except Exception: pass *)
          end
      | None => None
      end in
    match person with
    | Some p => Some p
    | None => name_like_line (Str.split NL first_chunk)
    end.

(** The stripped non-empty lines of a section that hold a keyword *)
Definition keyword_items (keys : list string) (section_text : text) : list text :=
  filter (has_keyword (map cp keys))
    (filter (fun ln => negb (Str.is_empty ln))
       (map Str.strip (Str.split NL section_text))).

Definition _extract_education : text -> list text :=
  keyword_items
    [ "bsc"; "b.s"; "bs "; "bachelor"; "msc"; "m.s"; "ms "; "master"; "phd";
      "ph.d"; "associate"; "diploma"; "university"; "college" ]%string.

Definition _extract_experience : text -> list text :=
  keyword_items
    [ "engineer"; "developer"; "manager"; "designer"; "intern"; "analyst";
      "lead"; "founder"; "consultant"; "architect" ]%string.

Definition _extract_projects (section_text : text) : list text :=
  firstn 20 (map Str.strip (filter nonblank (Str.split NL section_text))).

Definition _extract_certs (section_text : text) : list text :=
  firstn 20 (map Str.strip (filter nonblank (Str.split NL section_text))).

(** "\n".join(s for name_s, s in sections if name_s == name) *)
Definition sections_named (name : string) (secs : list (string * text)) : text :=
  Str.join [NL] (map snd (filter (fun sec => String.eqb (fst sec) name) secs)).

(** The body of [extract_resume_data] once the file has been read *)
Definition extract_resume_text (raw : text) : result dict :=
  let txt := clean_text raw in
  let nlp_model := _init_nlp in
  let email := extract_email txt in
  let phone := extract_phone txt in
  let linkedin := extract_linkedin txt in
  let github := extract_github txt in
  let name := _guess_name txt nlp_model in
  secs <- split_sections txt ;;
  let edu_sec := sections_named "education" secs in
  let exp_sec := sections_named "experience" secs in
  let skills_sec := sections_named "skills" secs in
  let projects_sec := sections_named "projects" secs in
  let certs_sec := sections_named "certifications" secs in
  let education := _extract_education edu_sec in
  let experience := _extract_experience exp_sec in
  let projects := _extract_projects projects_sec in
  let certifications := _extract_certs certs_sec in
  let skills := find_skills (or_else skills_sec txt) None in
  Ok [ ("name", opt_value name);
       ("email", opt_value email);
       ("phone", opt_value phone);
       ("education", VList education);
       ("experience", VList experience);
       ("skills", VList skills);
       ("projects", VList projects);
       ("certifications", VList certifications);
       ("linkedin", opt_value linkedin);
       ("github", opt_value github);
       ("raw_text", VStr txt) ]%string.

Definition extract_resume_data (file_path : text) : result dict :=
  raw <- _read_any file_path ;;
  extract_resume_text raw.

(** ** manager.py *)

Inductive DocType := resume | job | unknown.

Definition doc_type_name (t : DocType) : text :=
  match t with
  | resume => cp "resume"
  | job => cp "job"
  | unknown => cp "unknown"
  end.

Definition resume_markers : list text :=
  map cp [ "resume"; "curriculum vitae"; "cv"; "skills"; "experience";
           "education"; "linkedin.com/in/" ]%string.
Definition job_markers : list text :=
  map cp [ "job title"; "responsibilities"; "requirements"; "what you'll do";
           "what you'll need"; "company"; "employer" ]%string.

(** [sum(1 for m in markers if m in lower)] *)
Definition marker_score (markers : list text) (lower : text) : nat :=
  length (filter (fun m => Str.contains m lower) markers).

(** The decision of [detect_file_type] on the text it has obtained *)
Definition classify (raw : text) : DocType :=
  let normalized := clean_text raw in
  let lower := Str.lower normalized in
  let resume_score := marker_score resume_markers lower in
  let job_score := marker_score job_markers lower in
  if (resume_score =? 0)%nat && (job_score =? 0)%nat then unknown
  else if (job_score <=? resume_score)%nat then resume
  else job.

Definition detect_file_type (file_path : text) (txt : option text) : result DocType :=
  raw <- match txt with
         | Some t => Ok t
         | None => _read_any file_path
         end ;;
  Ok (classify raw).

Definition parse (file_path : text) : result dict :=
  raw <- _read_any file_path ;;
  doc_type <- detect_file_type file_path (Some raw) ;;
  match doc_type with
  | resume =>
      data <- extract_resume_data file_path ;;
      let normalized :=
        [ ("name", get data "name" VNone);
          ("contact", VDict [ ("email", get data "email" VNone);
                              ("phone", get data "phone" VNone);
                              ("linkedin", get data "linkedin" VNone);
                              ("github", get data "github" VNone) ]);
          ("skills", get data "skills" (VList []));
          ("education", get data "education" (VList []));
          ("experience", get data "experience" (VList []));
          ("projects", get data "projects" (VList []));
          ("certifications", get data "certifications" (VList []));
          ("raw_text", get data "raw_text" (VStr [])) ]%string in
      Ok [ ("type", VStr (doc_type_name doc_type)); ("data", VDict data);
           ("normalized", VDict normalized) ]%string
  | job =>
      data <- extract_job_data file_path ;;
      let normalized :=
        [ ("title", get data "title" VNone);
          ("company", get data "company" VNone);
          ("location", get data "location" VNone);
          ("skills", get data "skills_required" (VList []));
          ("requirements",
            VDict [ ("experience", get data "experience_required" VNone);
                    ("education", get data "education_required" VNone) ]);
          ("responsibilities", get data "responsibilities" (VList []));
          ("raw_text", get data "raw_text" (VStr [])) ]%string in
      Ok [ ("type", VStr (doc_type_name doc_type)); ("data", VDict data);
           ("normalized", VDict normalized) ]%string
  | unknown =>
      Ok [ ("type", VStr (cp "unknown")); ("data", VDict []);
           ("normalized", VDict [("raw_text", VStr (clean_text raw))]) ]%string
  end.

End Parsers.

(** ** utils.py: URLs *)

Section Urls.
Context {U : UnicodeData}.

Import Re.

(* https?://[\w.-]+(?:/[\w._~:/?#[\]@!$&'()*+,;=-]* )? *)
Definition URL_RE : regex :=
  seq [ lit "http"; Maybe (chr 115); lit "://";
        Plus (any_of [word; one_of ".-"]);
        Opt (seq [ Cls (chr 47);
                   Star (any_of [word; one_of "._~:/?#[]@!$&'()*+,;=-"]) ]) ].

(** [pattern.findall(s)] for a pattern without groups: the matches from
    left to right, each search starting where the last match ended (one
    character further after an empty match).  [skip] counts the
    characters of the last match still to pass. *)
Fixpoint findall_go (r : regex) (skip : nat) (pv : option N) (s : text)
  {struct s} : list text :=
  match skip with
  | S n =>
      match s with
      | [] => []
      | c :: s' => findall_go r n (Some c) s'
      end
  | O =>
      match match_at r pv s with
      | Some m =>
          group0 m ::
          match s with
          | [] => []
          | c :: s' => findall_go r (pred (length (group0 m))) (Some c) s'
          end
      | None =>
          match s with
          | [] => []
          | c :: s' => findall_go r 0 (Some c) s'
          end
      end
  end.
Definition findall (r : regex) (s : text) : list text := findall_go r 0 None s.

(** [list(dict.fromkeys(l))]: the elements of [l], each at its first
    place.  [seen] holds the keys already in the dictionary. *)
Fixpoint fromkeys_go (seen : list text) (l : list text) : list text :=
  match l with
  | [] => []
  | x :: l' =>
      if existsb (Str.eqb x) seen then fromkeys_go seen l'
      else x :: fromkeys_go (x :: seen) l'
  end.
Definition fromkeys (l : list text) : list text := fromkeys_go [] l.

Definition extract_urls (txt : text) : list text := fromkeys (findall URL_RE txt).

End Urls.

(** * Notions used to state the properties *)

(** The text does not start with a character of the class. *)
Definition starts_outside (f : N -> bool) (s : text) : Prop :=
  match s with
  | d :: _ => f d = false
  | [] => True
  end.

(** A text is stripped when neither end is in the class. *)
Definition stripped (f : N -> bool) (s : text) : Prop :=
  starts_outside f s /\ starts_outside f (rev s).

(** In a collapsed text every white-space character is a single space
    that is followed by a character that is not white space, or by the
    end. *)
Fixpoint collapsed (s : text) : Prop :=
  match s with
  | [] => True
  | c :: s' =>
      (isspace c = true -> c = SP /\ starts_outside isspace s') /\ collapsed s'
  end.

(** The normal form of [clean_text]: collapsed and stripped. *)
Definition normal (s : text) : Prop := collapsed s /\ stripped isspace s.

(** The character before the position reached after reading [x] *)
Definition prev_after (pv : option N) (x : text) : option N :=
  fold_left (fun _ c => Some c) x pv.

Definition within (hi : option nat) (n : nat) : Prop :=
  match hi with
  | Some h => (n <= h)%nat
  | None => True
  end.

(** [matches r st st']: the pattern [r] can take the matcher from [st]
    to [st']. *)
Inductive matches : Re.regex -> Re.mstate -> Re.mstate -> Prop :=
| M_Eps st : matches Re.Eps st st
| M_Cls p c s pv g :
    p c = true ->
    matches (Re.Cls p) (Re.MState pv (c :: s) g) (Re.MState (Some c) s g)
| M_Seq a b st1 st2 st3 :
    matches a st1 st2 -> matches b st2 st3 -> matches (Re.Seq a b) st1 st3
| M_AltL a b st st' : matches a st st' -> matches (Re.Alt a b) st st'
| M_AltR a b st st' : matches b st st' -> matches (Re.Alt a b) st st'
| M_Rep p lo hi x s pv g :
    forallb p x = true -> (lo <= length x)%nat -> within hi (length x) ->
    matches (Re.Rep p lo hi) (Re.MState pv (x ++ s) g)
            (Re.MState (prev_after pv x) s g)
| M_Grp a st st' :
    matches a st st' ->
    matches (Re.Grp a) st
      (Re.MState (Re.prev st') (Re.rest st')
         (Some (firstn (length (Re.rest st) - length (Re.rest st')) (Re.rest st))))
| M_Bos st : Re.prev st = None -> matches Re.Bos st st
| M_Eos st : Re.rest st = [] \/ Re.rest st = [NL] -> matches Re.Eos st st
| M_NotBehind p st :
    (forall c, Re.prev st = Some c -> p c = false) -> matches (Re.NotBehind p) st st
| M_NotAhead p st :
    starts_outside p (Re.rest st) -> matches (Re.NotAhead p) st st.

(** Every branch of the pattern goes through group 1. *)
Fixpoint sets_group (r : Re.regex) : bool :=
  match r with
  | Re.Grp _ => true
  | Re.Seq a b => sets_group a || sets_group b
  | Re.Alt a b => sets_group a && sets_group b
  | _ => false
  end.

(** [term] occurs in [t] with a neighbour on the left outside the class
    [before] and a neighbour on the right outside the class [after]
    (an end of [t] counts as outside). *)
Definition occurs_between (before after : N -> bool) (term t : text) : Prop :=
  exists pre post,
    t = pre ++ term ++ post
    /\ starts_outside before (rev pre) /\ starts_outside after post.

Section SpecNotions.
Context {U : UnicodeData}.

(** The dictionary of one call of [find_skills]: the defaults and the
    extras, lowered *)
Definition dictionary (extra_skills : option (list text)) : list text :=
  map Str.lower DEFAULT_SKILLS
  ++ match extra_skills with
     | Some extra => map Str.lower extra
     | None => []
     end.

(** The text [find_skills] searches: lowered, with a space at each end *)
Definition padded (txt : text) : text := [SP] ++ Str.lower txt ++ [SP].

(** The class the specification gives for the character after a skill:
    a word character or '-'. *)
Definition after_skill_claimed : N -> bool :=
  Re.any_of [Re.word; Re.one_of "-"].

(** Equal up to case, as [re.IGNORECASE] compares a pattern string with
    a piece of the subject *)
Definition ci_equal (h body : text) : Prop :=
  Forall2 (fun a c => Re.ci a c = true) h body.

(** [ci_equal] decided, to check concrete lines *)
Fixpoint ci_equalb (h body : text) : bool :=
  match h, body with
  | [], [] => true
  | a :: h', c :: body' => Re.ci a c && ci_equalb h' body'
  | _, _ => false
  end.

(** The marker phrases of all section kinds *)
Definition marker_phrases : list text := map fst header_map.

(** The shape of a trimmed header line: a marker phrase up to case, then
    possibly a colon, which white space may separate from the phrase. *)
Definition header_shape (ln : text) : Prop :=
  exists h body,
    In h marker_phrases /\ ci_equal h body
    /\ (ln = body
        \/ exists ws, forallb isspace ws = true /\ ln = body ++ ws ++ [58]).

(** The shape the specification gives: a marker phrase up to case, then
    possibly a colon and nothing else. *)
Definition header_shape_claimed (ln : text) : Prop :=
  exists h body,
    In h marker_phrases /\ ci_equal h body /\ (ln = body \/ ln = body ++ [58]).

(** A line that is trimmed and not empty *)
Definition good_line (l : text) : Prop := l <> [] /\ stripped isspace l.

(** The lines the segmenter works on: the non-blank lines, trimmed *)
Definition content_lines (txt : text) : list text :=
  map Str.strip (filter nonblank (Str.split NL txt)).

Definition is_header (ln : text) : bool :=
  Re.is_some (first_header header_patterns ln).

(** The kind a header line opens *)
Definition header_kind (ln : text) : option string :=
  match first_header header_patterns ln with
  | Some h =>
      match header_lookup h header_map with
      | Ok k => Some k
      | Raise _ => None
      end
  | None => None
  end.

(** The segmenter in the words of the specification: a header line
    closes the section being accumulated, which is appended when it is
    not empty, and opens a section of its kind; any other line is added
    to the section being accumulated; the end closes the last one. *)
Definition close_section (kind : string) (acc : list text) : list (string * text) :=
  match acc with
  | [] => []
  | _ :: _ => [(kind, Str.strip (Str.join [NL] acc))]
  end.

Fixpoint segment_spec (kind : string) (acc : list text) (lines : list text)
  : list (string * text) :=
  match lines with
  | [] => close_section kind acc
  | ln :: lines' =>
      match header_kind ln with
      | Some k => close_section kind acc ++ segment_spec k [] lines'
      | None => segment_spec kind (acc ++ [ln]) lines'
      end
  end.

End SpecNotions.

Section JobNotions.
Context {U : UnicodeData}.

(** What [_extract_first_match] returns when it does not raise *)
Definition first_group (r : Re.regex) (txt : text) : option text :=
  match Re.search r txt with
  | Some m => option_map Str.strip (Re.group_1 m)
  | None => None
  end.

(** The requirements text the job parser works with once the text is
    cleaned: the header lookup finds nothing and the keyword lines are
    taken. *)
Definition requirements_of (txt : text) : text :=
  keyword_lines ["requirements"; "must have"; "qualifications"]%string txt.
Definition responsibilities_of (txt : text) : text :=
  keyword_lines ["responsibilities"; "you will"; "you'll"]%string txt.

(** The dictionary built by [extract_job_text], field by field *)
Definition job_fields (txt : text) : dict :=
  [ ("title", opt_value (first_group TITLE_RE txt));
    ("company", opt_value (first_group COMPANY_RE txt));
    ("skills_required",
       VList (find_skills (or_else (requirements_of txt) [] ++ [NL] ++ txt)%list None));
    ("experience_required",
       opt_value (first_group EXPERIENCE_RE (or_else (requirements_of txt) txt)));
    ("education_required",
       opt_value (first_group EDUCATION_RE (or_else (requirements_of txt) txt)));
    ("responsibilities", VList (_extract_bullets (responsibilities_of txt)));
    ("location", opt_value (first_group LOCATION_RE txt));
    ("raw_text", VStr txt) ]%string.

(** A skill of the dictionary holds neither a space nor a newline. *)
Definition plain_term (s : text) : bool :=
  negb (Str.is_empty s) && negb (Str.mem s SP) && negb (Str.mem s NL).

End JobNotions.

(** The input of the end-to-end job example of the specification *)
Definition job_example : text :=
  cp "Job Title: Backend Engineer" ++ [NL] ++ cp "Company: Acme" ++ [NL]
  ++ cp "Requirements" ++ [NL] ++ cp "3+ years of experience" ++ [NL]
  ++ cp "Bachelor's degree".

(** A host in which every file is a text file with content [content]
    and the named-entity model is absent *)
Definition example_host (content : text) : Host := {|
  splitext_ext := fun _ => cp ".txt";
  read_pdf := fun _ => Raise ValueError;
  read_docx := fun _ => Raise ValueError;
  read_txt := fun _ => Ok content;
  _init_nlp := None
|}.

Section OutputNotions.
Context {U : UnicodeData} {H : Host}.

(** The dictionary built by [extract_resume_text], field by field: after
    cleaning there is no named section, so the four section lists are
    empty and the skills are those of the whole text. *)
Definition resume_fields (txt : text) : dict :=
  [ ("name", opt_value (_guess_name txt _init_nlp));
    ("email", opt_value (extract_email txt));
    ("phone", opt_value (extract_phone txt));
    ("education", VList []);
    ("experience", VList []);
    ("skills", VList (find_skills txt None));
    ("projects", VList []);
    ("certifications", VList []);
    ("linkedin", opt_value (extract_linkedin txt));
    ("github", opt_value (extract_github txt));
    ("raw_text", VStr txt) ]%string.

(** A singular field holds a string or [None]; a list field holds a
    list of strings. *)
Definition optional_string (v : value) : Prop := v = VNone \/ exists s, v = VStr s.
Definition string_list (v : value) : Prop := exists l, v = VList l.

Definition has_fields (singular lists : list string) (d : dict) : Prop :=
  (forall k, In k singular -> exists v, lookup k d = Some v /\ optional_string v)
  /\ (forall k, In k lists -> exists v, lookup k d = Some v /\ string_list v)
  /\ exists s, lookup "raw_text" d = Some (VStr s).

Definition resume_singular : list string :=
  ["name"; "email"; "phone"; "linkedin"; "github"]%string.
Definition resume_lists : list string :=
  ["education"; "experience"; "skills"; "projects"; "certifications"]%string.
Definition job_singular : list string :=
  ["title"; "company"; "location"; "experience_required"; "education_required"]%string.
Definition job_lists : list string :=
  ["skills_required"; "responsibilities"]%string.

(** [m] is a substring of [t]. *)
Definition substring (m t : text) : Prop := exists pre post, t = pre ++ m ++ post.

End OutputNotions.

(** ** Further notions *)

Definition nonspace (c : N) : bool := negb (isspace c).

(** The names a section can have *)
Definition section_names : list string := "body"%string :: map fst SECTION_HEADERS.

(** The lines of a section *)
Definition lines_of (sec : string * text) : list text := Str.split NL (snd sec).

Section MoreNotions.
Context {U : UnicodeData}.

(** The content lines that are not headers *)
Definition body_lines (txt : text) : list text :=
  filter (fun ln => negb (is_header ln)) (content_lines txt).

End MoreNotions.

(** The shape of a match of [EMAIL_RE]: a local part, '@', a domain, a
    dot and at least two letters *)
Definition email_shape (e : text) : Prop :=
  exists l d t,
    e = l ++ [64] ++ d ++ [46] ++ t
    /\ l <> [] /\ forallb (Re.any_of [alnum_ascii; Re.one_of "._%+-"]) l = true
    /\ d <> [] /\ forallb (Re.any_of [alnum_ascii; Re.one_of ".-"]) d = true
    /\ (2 <= length t)%nat /\ forallb ascii_isalpha t = true.

Section PatternNotions.
Context {U : UnicodeData}.

(** The number of digits ([\d]) of a text *)
Definition digit_count (e : text) : nat := length (filter Re.digit e).

(** The shape of a profile link: something that starts with "http" up
    to case and holds, up to case, the host and a slash followed by a
    non-empty path of word characters, '-' and '/' *)
Definition profile_shape (host : string) (e : text) : Prop :=
  exists scheme h p,
    e = scheme ++ h ++ p
    /\ ci_equal (cp "http") (firstn 4 scheme)
    /\ ci_equal (cp host ++ [47]) h
    /\ p <> []
    /\ forallb (Re.any_of [Re.word; Re.one_of "-/"]) p = true.

End PatternNotions.

(** A host in which every path has the extension [ext] and would read
    as [content]; no named-entity model *)
Definition host_with_ext (ext content : text) : Host := {|
  splitext_ext := fun _ => ext;
  read_pdf := fun _ => Ok content;
  read_docx := fun _ => Ok content;
  read_txt := fun _ => Ok content;
  _init_nlp := None
|}.

(** A host in which no text file exists *)
Definition missing_host : Host := {|
  splitext_ext := fun _ => cp ".txt";
  read_pdf := fun _ => Raise ValueError;
  read_docx := fun _ => Raise ValueError;
  read_txt := fun _ => Raise FileNotFoundError;
  _init_nlp := None
|}.

(** The record [parse] returns for an unknown document with text [t] *)
Definition unknown_record (t : text) : dict :=
  [ ("type", VStr (cp "unknown")); ("data", VDict []);
    ("normalized", VDict [("raw_text", VStr t)]) ]%string.

(** The characters [_extract_bullets] strips from both ends of a line *)
Definition bullet_marks : N -> bool := Str.mem [SP; 45; BULLET; 9].

Definition ascii_upper (c : N) : N := if ascii_islower c then c - 32 else c.

(** [l1] is [l2] with some elements left out. *)
Inductive subseq {A : Type} : list A -> list A -> Prop :=
| subseq_nil l : subseq [] l
| subseq_take x l1 l2 : subseq l1 l2 -> subseq (x :: l1) (x :: l2)
| subseq_skip x l1 l2 : subseq l1 l2 -> subseq l1 (x :: l2).

Section OrderNotions.
Context {U : UnicodeData}.

(** The kinds opened by the header lines, in the order of the lines *)
Fixpoint header_kinds (lines : list text) : list string :=
  match lines with
  | [] => []
  | ln :: lines' =>
      match header_kind ln with
      | Some k => k :: header_kinds lines'
      | None => header_kinds lines'
      end
  end.

(** Every marker phrase of the table opens, as a line, its own kind. *)
Definition phrases_open_their_kind (variant : text -> text) : bool :=
  forallb (fun item =>
             forallb (fun h =>
                        match header_kind (variant h) with
                        | Some k => String.eqb k (fst item)
                        | None => false
                        end)
                     (snd item))
          SECTION_HEADERS.

End OrderNotions.

(** * Properties *)

(** ** String methods *)

Lemma firstn_in (A : Type) (n : nat) (l : list A) (x : A) :
  In x (firstn n l) -> In x l.
Proof.
  intros Hin. rewrite <- (firstn_skipn n l). apply in_or_app. now left.
Qed.

Module StrFacts.
Import Str.

Lemma eqb_eq (a b : text) : eqb a b = true <-> a = b.
Proof.
  unfold eqb. destruct (list_eq_dec N.eq_dec a b); split; congruence.
Qed.

Lemma eqb_refl (a : text) : eqb a a = true.
Proof. now apply eqb_eq. Qed.

Lemma is_empty_true (s : text) : is_empty s = true <-> s = [].
Proof. destruct s; simpl; split; congruence. Qed.

Lemma is_empty_false (s : text) : is_empty s = false <-> s <> [].
Proof. destruct s; simpl; split; congruence. Qed.

(** [drop_while] cuts off a prefix of characters of the class. *)
Lemma drop_while_split (f : N -> bool) (s : text) :
  exists x, s = x ++ drop_while f s /\ forallb f x = true.
Proof.
  induction s as [|c s IH]; simpl.
  - exists []. auto.
  - destruct (f c) eqn:E.
    + destruct IH as [x [E1 E2]]. exists (c :: x). simpl.
      rewrite E, E2. split; [now f_equal | reflexivity].
    + exists []. auto.
Qed.

Lemma drop_while_starts (f : N -> bool) (s : text) :
  starts_outside f (drop_while f s).
Proof.
  induction s as [|c s IH]; simpl; auto.
  destruct (f c) eqn:E; simpl; auto.
Qed.

Lemma drop_while_id (f : N -> bool) (s : text) :
  starts_outside f s -> drop_while f s = s.
Proof. destruct s; simpl; auto. intros ->. reflexivity. Qed.

Lemma starts_outside_app (f : N -> bool) (a b : text) :
  starts_outside f (a ++ b) -> a <> [] -> starts_outside f a.
Proof. destruct a; simpl; auto. Qed.

Lemma strip_with_stripped (f : N -> bool) (s : text) :
  stripped f (strip_with f s).
Proof.
  unfold strip_with, stripped.
  set (a := drop_while f s).
  destruct (drop_while_split f (rev a)) as [x [E _]].
  set (b := drop_while f (rev a)) in *.
  split.
  - assert (Ea : a = rev b ++ rev x).
    { rewrite <- (rev_involutive a), E, rev_app_distr. reflexivity. }
    destruct (rev b) eqn:Eb; simpl; auto.
    pose proof (drop_while_starts f s) as Hs. fold a in Hs.
    rewrite Ea in Hs. exact Hs.
  - rewrite rev_involutive. apply drop_while_starts.
Qed.

Lemma strip_with_id (f : N -> bool) (s : text) :
  stripped f s -> strip_with f s = s.
Proof.
  intros [H1 H2]. unfold strip_with.
  rewrite (drop_while_id f s H1), (drop_while_id f (rev s) H2).
  apply rev_involutive.
Qed.

Lemma strip_with_idem (f : N -> bool) (s : text) :
  strip_with f (strip_with f s) = strip_with f s.
Proof. apply strip_with_id, strip_with_stripped. Qed.

(** The result of [strip_with] is a segment of its argument. *)
Lemma strip_with_segment (f : N -> bool) (s : text) :
  exists x y, s = x ++ strip_with f s ++ y
              /\ forallb f x = true /\ forallb f y = true.
Proof.
  unfold strip_with.
  destruct (drop_while_split f s) as [x [E Hx]].
  set (a := drop_while f s) in *.
  destruct (drop_while_split f (rev a)) as [y [E' Hy]].
  set (b := drop_while f (rev a)) in *.
  exists x, (rev y). split; [|split; auto].
  - rewrite <- rev_app_distr, <- E', rev_involutive. exact E.
  - rewrite forallb_forall in *. intros c Hc. apply Hy. now apply in_rev.
Qed.

Lemma strip_with_nil (f : N -> bool) : strip_with f [] = [].
Proof. reflexivity. Qed.

(** [split] on a text without the separator gives the text alone. *)
Lemma split_go_none (sep : N) (s : text) :
  ~ In sep s -> split_go sep s = (s, []).
Proof.
  induction s as [|c s IH]; simpl; intros Hn; auto.
  rewrite IH by tauto.
  destruct (N.eqb_spec c sep); [exfalso; auto | reflexivity].
Qed.

Lemma split_none (sep : N) (s : text) : ~ In sep s -> split sep s = [s].
Proof. intros Hn. unfold split. now rewrite split_go_none. Qed.

(** [split] and [join] *)
Lemma join_cons (sep p : text) (ps : list text) :
  ps <> [] -> join sep (p :: ps) = p ++ sep ++ join sep ps.
Proof. destruct ps; [congruence | reflexivity]. Qed.

Lemma join_split (sep : N) (s : text) : join [sep] (split sep s) = s.
Proof.
  unfold split.
  induction s as [|c s IH]; simpl; auto.
  destruct (split_go sep s) as [cur rest'].
  destruct (N.eqb_spec c sep) as [->|Hne].
  - rewrite join_cons by discriminate. now rewrite IH.
  - destruct rest' as [|r rest'].
    + simpl in *. now rewrite IH.
    + rewrite join_cons by discriminate.
      rewrite join_cons in IH by discriminate.
      rewrite <- IH. reflexivity.
Qed.

Lemma split_app (sep : N) (a b : text) :
  split sep (a ++ sep :: b) = split sep a ++ split sep b.
Proof.
  unfold split.
  assert (Hgo : split_go sep (a ++ sep :: b)
                = (fst (split_go sep a),
                   snd (split_go sep a)
                   ++ fst (split_go sep b) :: snd (split_go sep b))).
  { induction a as [|c a IH]; simpl.
    - rewrite N.eqb_refl. destruct (split_go sep b). reflexivity.
    - rewrite IH. destruct (split_go sep a) as [ca ra]. simpl.
      destruct (c =? sep); reflexivity. }
  rewrite Hgo. destruct (split_go sep a), (split_go sep b). reflexivity.
Qed.

Lemma join_app (sep : text) (l1 l2 : list text) :
  l1 <> [] -> l2 <> [] ->
  join sep (l1 ++ l2) = join sep l1 ++ sep ++ join sep l2.
Proof.
  intros H1 H2. induction l1 as [|p l1 IH]; [congruence|].
  destruct l1 as [|q l1].
  - simpl app. now rewrite join_cons.
  - change ((p :: q :: l1) ++ l2) with (p :: ((q :: l1) ++ l2)).
    rewrite join_cons by discriminate.
    rewrite (join_cons sep p (ps := q :: l1)) by discriminate.
    rewrite IH by discriminate. now rewrite <- !app_assoc.
Qed.

(** Lower-casing goes line by line. *)
Lemma lower_lines {U : UnicodeData} (a b : text) :
  lower (a ++ NL :: b) = lower a ++ NL :: lower b.
Proof.
  unfold lower. rewrite split_app, map_app.
  rewrite join_app; [reflexivity | |]; unfold split;
    destruct (split_go NL _); discriminate.
Qed.

Lemma split_parts_no_sep (sep : N) (s : text) :
  Forall (fun p => ~ In sep p) (split sep s).
Proof.
  unfold split.
  induction s as [|c s IH]; simpl.
  - constructor; auto.
  - destruct (split_go sep s) as [cur rest'].
    destruct (N.eqb_spec c sep) as [->|Hne].
    + constructor; auto.
    + inversion IH; subst. constructor; auto.
      simpl. intros [?|?]; auto.
Qed.

(** [startswith] and [contains] against their meaning *)
Lemma startswith_spec (p s : text) :
  startswith p s = true <-> exists post, s = p ++ post.
Proof.
  revert s. induction p as [|a p IH]; intros s; simpl.
  - split; eauto.
  - destruct s as [|b s].
    + split; [discriminate | intros [post E]; discriminate].
    + rewrite andb_true_iff, N.eqb_eq, IH. split.
      * intros [-> [post ->]]. eauto.
      * intros [post E]. injection E as -> ->. eauto.
Qed.

Lemma contains_spec (p s : text) :
  contains p s = true <-> exists pre post, s = pre ++ p ++ post.
Proof.
  induction s as [|c s IH].
  - cbn [contains]. rewrite orb_false_r, startswith_spec. split.
    + intros [post E]. exists [], post. exact E.
    + intros [pre [post E]]. destruct pre; simpl in E; eauto. discriminate.
  - cbn [contains]. rewrite orb_true_iff, startswith_spec, IH. split.
    + intros [[post E]|[pre [post E]]].
      * exists [], post. exact E.
      * exists (c :: pre), post. simpl. now f_equal.
    + intros [pre [post E]]. destruct pre as [|d pre]; simpl in E.
      * left. eauto.
      * right. injection E as -> E. eauto.
Qed.

(** [replace] leaves alone a text without the first character of [old]. *)
Lemma replace_absent (o : N) (old new s : text) :
  ~ In o s -> replace (o :: old) new s = s.
Proof.
  unfold replace. induction s as [|c s IH]; simpl; intros Hn; auto.
  destruct (N.eqb_spec o c) as [->|Hne]; [exfalso; auto|].
  simpl. f_equal. apply IH. tauto.
Qed.

(** The order of strings *)
Lemma compare_eq (a b : text) : compare a b = Eq <-> a = b.
Proof.
  revert b. induction a as [|x a IH]; intros [|y b]; simpl; try (split; congruence).
  destruct (N.compare_spec x y) as [->|Hlt|Hgt].
  - rewrite IH. split; congruence.
  - split; [discriminate | intros E; injection E as -> _; lia].
  - split; [discriminate | intros E; injection E as -> _; lia].
Qed.

Lemma compare_antisym (a b : text) : compare b a = CompOpp (compare a b).
Proof.
  revert b. induction a as [|x a IH]; intros [|y b]; simpl; auto.
  rewrite (N.compare_antisym x y).
  destruct (x ?= y); simpl; auto.
Qed.

Lemma lt_trans (a b c : text) : lt a b -> lt b c -> lt a c.
Proof.
  unfold lt. revert b c.
  induction a as [|x a IH]; intros [|y b] [|z c]; simpl; try congruence.
  destruct (N.compare_spec x y) as [->|Hxy|Hxy]; try discriminate.
  - destruct (y ?= z) eqn:E; try discriminate; auto. apply IH.
  - intros _. destruct (N.compare_spec y z) as [->|Hyz|Hyz]; try discriminate.
    + intros _. apply N.compare_lt_iff in Hxy. now rewrite Hxy.
    + intros _. assert (Hxz : x < z) by lia.
      apply N.compare_lt_iff in Hxz. now rewrite Hxz.
Qed.

Lemma lt_irrefl (a : text) : ~ lt a a.
Proof.
  unfold lt. intros E.
  assert (compare a a = Eq) by now apply compare_eq. congruence.
Qed.

End StrFacts.

(** ** Cleaning *)

Module CleanFacts.
Import Str StrFacts.

Lemma sub_whitespace_collapsed (s : text) :
  collapsed (sub_whitespace_go false s)
  /\ collapsed (sub_whitespace_go true s)
  /\ starts_outside isspace (sub_whitespace_go true s).
Proof.
  induction s as [|c s [IH1 [IH2 IH3]]]; simpl; auto.
  destruct (isspace c) eqn:E; simpl; repeat split; auto; congruence.
Qed.

Lemma collapsed_app_l (a b : text) : collapsed (a ++ b) -> collapsed a.
Proof.
  induction a as [|c a IH]; simpl; auto.
  intros [H1 H2]. split; auto.
  intros Hc. destruct (H1 Hc) as [-> H3]. split; auto.
  destruct a; simpl in *; auto.
Qed.

Lemma collapsed_app_r (a b : text) : collapsed (a ++ b) -> collapsed b.
Proof. induction a as [|c a IH]; simpl; auto. intros [_ H]. auto. Qed.

Lemma collapsed_space (s : text) (c : N) :
  collapsed s -> In c s -> isspace c = true -> c = SP.
Proof.
  induction s as [|d s IH]; simpl; [tauto|].
  intros [H1 H2] [->|Hin] Hc; auto. now destruct (H1 Hc).
Qed.

Lemma collapsed_fixed (s : text) :
  collapsed s ->
  sub_whitespace_go false s = s
  /\ (starts_outside isspace s -> sub_whitespace_go true s = s).
Proof.
  induction s as [|c s IH]; simpl; auto.
  intros [H1 H2]. destruct (IH H2) as [IH1 IH2].
  destruct (isspace c) eqn:E.
  - destruct (H1 eq_refl) as [-> H3]. split.
    + now rewrite IH2.
    + discriminate.
  - split; intros; now rewrite IH1.
Qed.

Lemma strip_collapsed (s : text) : collapsed s -> collapsed (strip s).
Proof.
  intros Hc. destruct (strip_with_segment isspace s) as [x [y [E _]]].
  fold (strip s) in E. rewrite E in Hc.
  apply collapsed_app_r in Hc. now apply collapsed_app_l in Hc.
Qed.

Lemma clean_text_normal (x : text) : normal (clean_text x).
Proof.
  unfold clean_text. destruct (is_empty x).
  - repeat split; simpl; auto.
  - split.
    + apply strip_collapsed. apply sub_whitespace_collapsed.
    + apply strip_with_stripped.
Qed.

Lemma normal_not_in (s : text) (c : N) :
  normal s -> isspace c = true -> c <> SP -> ~ In c s.
Proof.
  intros [Hc _] Hs Hne Hin. apply Hne. eapply collapsed_space; eauto.
Qed.

Lemma clean_text_fixed (s : text) : normal s -> clean_text s = s.
Proof.
  intros Hn. unfold clean_text.
  destruct (is_empty s) eqn:E; [now apply is_empty_true in E|].
  rewrite (replace_absent NBSP [] [SP] s)
    by (apply normal_not_in; [assumption | reflexivity | discriminate]).
  rewrite (replace_absent CR [NL] [NL] s)
    by (apply normal_not_in; [assumption | reflexivity | discriminate]).
  rewrite (replace_absent CR [] [NL] s)
    by (apply normal_not_in; [assumption | reflexivity | discriminate]).
  destruct Hn as [Hc Hs].
  unfold WHITESPACE_RE_sub. rewrite (proj1 (collapsed_fixed s Hc)).
  now apply strip_with_id.
Qed.

Lemma clean_text_no_newline (x : text) : ~ In NL (clean_text x).
Proof.
  apply normal_not_in; [apply clean_text_normal | reflexivity | discriminate].
Qed.

Lemma clean_text_strip (x : text) : strip (clean_text x) = clean_text x.
Proof. apply strip_with_id, clean_text_normal. Qed.

End CleanFacts.

(** C8.  Cleaning is idempotent: cleaning a cleaned text changes nothing. *)
Theorem clean_text_idempotent (x : text) :
  clean_text (clean_text x) = clean_text x.
Proof. apply CleanFacts.clean_text_fixed, CleanFacts.clean_text_normal. Qed.

(** ** The matcher against a declarative reading of the patterns *)

Module ReFacts.
Import Re.

Create HintDb re.
#[local] Hint Constructors matches : re.

Lemma rep_sound (R : Type) (p : N -> bool) (s : text) :
  forall lo hi pv (k : option N -> text -> option R) res,
    rep p lo hi pv s k = Some res ->
    exists x s', s = x ++ s' /\ forallb p x = true /\ (lo <= length x)%nat
                 /\ within hi (length x) /\ k (prev_after pv x) s' = Some res.
Proof.
  assert (Hstop : forall lo hi pv t (k : option N -> text -> option R) res,
             match lo with O => k pv t | S _ => None end = Some res ->
             exists x s', t = x ++ s' /\ forallb p x = true /\ (lo <= length x)%nat
                          /\ within hi (length x) /\ k (prev_after pv x) s' = Some res).
  { intros lo hi pv t k res Hk. destruct lo; [|discriminate].
    exists [], t. repeat split; auto. destruct hi; simpl; auto. lia. }
  induction s as [|c s IH]; intros lo hi pv k res; simpl.
  - apply Hstop.
  - destruct (p c) eqn:Ep; simpl; [|apply Hstop].
    assert (Hgo : rep p (pred lo) (option_map pred hi) (Some c) s k = Some res ->
                  hi <> Some O ->
                  exists x s', c :: s = x ++ s' /\ forallb p x = true
                    /\ (lo <= length x)%nat /\ within hi (length x)
                    /\ k (prev_after pv x) s' = Some res).
    { intros Hr Hhi. apply IH in Hr.
      destruct Hr as [x [s' [-> [Hx [Hlo [Hhi' Hk]]]]]].
      exists (c :: x), s'. simpl. rewrite Ep, Hx. repeat split; auto; [lia|].
      destruct hi as [[|h]|]; simpl in *; auto; [congruence | lia]. }
    destruct hi as [[|h]|].
    + apply Hstop.
    + destruct (rep p (pred lo) (option_map pred (Some (S h))) (Some c) s k) eqn:Er.
      * intros E. injection E as <-. apply Hgo; [reflexivity | discriminate].
      * apply Hstop.
    + destruct (rep p (pred lo) (option_map pred None) (Some c) s k) eqn:Er.
      * intros E. injection E as <-. apply Hgo; [reflexivity | discriminate].
      * apply Hstop.
Qed.

Lemma rep_complete (R : Type) (p : N -> bool) (x : text) :
  forall lo hi pv s' (k : option N -> text -> option R) res,
    forallb p x = true -> (lo <= length x)%nat -> within hi (length x) ->
    k (prev_after pv x) s' = Some res ->
    exists res', rep p lo hi pv (x ++ s') k = Some res'.
Proof.
  induction x as [|c x IH]; intros lo hi pv s' k res Hx Hlo Hhi Hk.
  - simpl in *. assert (lo = O) by lia. subst lo.
    destruct s' as [|d s']; simpl; eauto.
    destruct (p d && match hi with Some O => false | _ => true end); eauto.
    destruct (rep p 0 (option_map pred hi) (Some d) s' k); eauto.
  - simpl in Hx. apply andb_true_iff in Hx. destruct Hx as [Hc Hx].
    simpl in Hlo, Hhi, Hk.
    destruct (IH (pred lo) (option_map pred hi) (Some c) s' k res) as [res' Hr]; auto.
    + lia.
    + destruct hi; simpl in *; auto. lia.
    + cbn [app rep]. rewrite Hc.
      destruct hi as [[|h]|]; simpl in *; [lia | |]; rewrite Hr; eauto.
Qed.

Theorem run_sound (R : Type) (r : regex) :
  forall st (k : mstate -> option R) res,
    run r st k = Some res ->
    exists st', matches r st st' /\ k st' = Some res.
Proof.
  induction r as [|p|a IHa b IHb|a IHa b IHb|p lo hi|a IHa| | |p|p];
    intros st k res Hrun; simpl in Hrun.
  - eauto with re.
  - destruct st as [pv [|c s] g]; simpl in Hrun; [discriminate|].
    destruct (p c) eqn:Ep; [|discriminate]. eauto with re.
  - apply IHa in Hrun. destruct Hrun as [st1 [H1 Hrun]].
    apply IHb in Hrun. destruct Hrun as [st2 [H2 Hk]]. eauto with re.
  - destruct (run a st k) eqn:Ea.
    + injection Hrun as <-. apply IHa in Ea. destruct Ea as [st' [? ?]]. eauto with re.
    + apply IHb in Hrun. destruct Hrun as [st' [? ?]]. eauto with re.
  - destruct st as [pv s g]. simpl in Hrun. apply rep_sound in Hrun.
    destruct Hrun as [x [s' [-> [Hx [Hlo [Hhi Hk]]]]]].
    eexists. split; [apply M_Rep; eauto | exact Hk].
  - apply IHa in Hrun. destruct Hrun as [st' [? ?]]. eauto with re.
  - destruct (prev st) eqn:E; [discriminate|]. eauto with re.
  - destruct (rest st) as [|c [|d s]] eqn:E; try discriminate; eauto with re.
    destruct (N.eqb_spec c NL); [subst|discriminate]. eauto with re.
  - exists st. split.
    + apply M_NotBehind. intros c Hc. rewrite Hc in Hrun.
      destruct (p c); [discriminate | reflexivity].
    + destruct (prev st) as [c|]; auto. destruct (p c); [discriminate | auto].
  - exists st. split.
    + apply M_NotAhead. destruct (rest st) as [|c s]; simpl; auto.
      destruct (p c); [discriminate | reflexivity].
    + destruct (rest st) as [|c s]; auto. destruct (p c); [discriminate | auto].
Qed.

Theorem run_complete (R : Type) (r : regex) (st st' : mstate) :
  matches r st st' ->
  forall (k : mstate -> option R) res,
    k st' = Some res -> exists res', run r st k = Some res'.
Proof.
  induction 1; intros k res Hk; simpl.
  - eauto.
  - rewrite H. eauto.
  - destruct (IHmatches2 k res Hk) as [res1 H1].
    apply (IHmatches1 (fun st' => run b st' k) res1 H1).
  - destruct (IHmatches k res Hk) as [res1 ->]. eauto.
  - destruct (run a st k); eauto.
  - eapply rep_complete; eauto.
  - eapply (IHmatches (fun st' => k (MState (prev st') (rest st') _))). exact Hk.
  - rewrite H. eauto.
  - destruct H as [-> | ->]; simpl; eauto.
  - destruct (prev st) as [c|]; eauto. rewrite (H c eq_refl). eauto.
  - destruct (rest st) as [|c s]; eauto. simpl in H. rewrite H. eauto.
Qed.

(** What a match object holds *)
Lemma match_at_sound (r : regex) (pv : option N) (s : text) (m : match_obj) :
  match_at r pv s = Some m ->
  exists st', matches r (MState pv s None) st'
              /\ m = Match (firstn (length s - length (rest st')) s) (group1 st').
Proof.
  unfold match_at. destruct (run r (MState pv s None) (fun st => Some st)) eqn:E;
    [|discriminate].
  intros Em. injection Em as <-. apply run_sound in E.
  destruct E as [st' [Hm Hk]]. injection Hk as ->. eauto.
Qed.

Lemma match_at_complete (r : regex) (pv : option N) (s : text) (st' : mstate) :
  matches r (MState pv s None) st' -> is_some (match_at r pv s) = true.
Proof.
  intros Hm. unfold match_at.
  destruct (run_complete Hm (fun st => Some st) eq_refl) as [res ->].
  reflexivity.
Qed.

Lemma prev_after_app (pv : option N) (x y : text) :
  prev_after pv (x ++ y) = prev_after (prev_after pv x) y.
Proof. unfold prev_after. apply fold_left_app. Qed.

(** [search] finds a match exactly when the pattern matches at some
    position. *)
Lemma search_from_sound (r : regex) (s : text) :
  forall pv m,
    search_from r pv s = Some m ->
    exists pre s', s = pre ++ s' /\ match_at r (prev_after pv pre) s' = Some m.
Proof.
  induction s as [|c s IH]; intros pv m; simpl.
  - destruct (match_at r pv []) eqn:E; [|discriminate].
    intros Em. injection Em as <-. exists [], []. auto.
  - destruct (match_at r pv (c :: s)) eqn:E.
    + intros Em. injection Em as <-. exists [], (c :: s). auto.
    + intros Hs. apply IH in Hs. destruct Hs as [pre [s' [-> Hm]]].
      exists (c :: pre), s'. auto.
Qed.

Lemma search_from_complete (r : regex) (pre : text) :
  forall pv s',
    is_some (match_at r (prev_after pv pre) s') = true ->
    is_some (search_from r pv (pre ++ s')) = true.
Proof.
  induction pre as [|c pre IH]; intros pv s' Hm; simpl in *.
  - destruct s' as [|d s']; simpl; destruct (match_at r pv _); auto; discriminate.
  - destruct (match_at r pv (c :: pre ++ s')); auto.
Qed.

Theorem search_spec (r : regex) (s : text) :
  is_some (search r s) = true <->
  exists pre s' st',
    s = pre ++ s' /\ matches r (MState (prev_after None pre) s' None) st'.
Proof.
  unfold search. split.
  - destruct (search_from r None s) as [m|] eqn:E; [|discriminate]. intros _.
    apply search_from_sound in E. destruct E as [pre [s' [-> Hm]]].
    apply match_at_sound in Hm. destruct Hm as [st' [Hm _]]. eauto.
  - intros [pre [s' [st' [-> Hm]]]]. apply search_from_complete.
    eapply match_at_complete; eauto.
Qed.

(** Inversion, one lemma per construct *)
Lemma seq_inv (a b : regex) (st st' : mstate) :
  matches (Seq a b) st st' -> exists st2, matches a st st2 /\ matches b st2 st'.
Proof. inversion 1; subst; eauto. Qed.

Lemma alt_inv (a b : regex) (st st' : mstate) :
  matches (Alt a b) st st' -> matches a st st' \/ matches b st st'.
Proof. inversion 1; subst; auto. Qed.

Lemma rep_inv (p : N -> bool) (lo : nat) (hi : option nat) (st st' : mstate) :
  matches (Rep p lo hi) st st' ->
  exists x,
    rest st = x ++ rest st' /\ forallb p x = true /\ (lo <= length x)%nat
    /\ within hi (length x) /\ prev st' = prev_after (prev st) x
    /\ group1 st' = group1 st.
Proof. inversion 1; subst; simpl; eauto 10. Qed.

Lemma bos_inv (st st' : mstate) :
  matches Bos st st' -> st' = st /\ prev st = None.
Proof. inversion 1; subst; auto. Qed.

Lemma eos_inv (st st' : mstate) :
  matches Eos st st' -> st' = st /\ (rest st = [] \/ rest st = [NL]).
Proof. inversion 1; subst; auto. Qed.

Lemma not_behind_inv (p : N -> bool) (st st' : mstate) :
  matches (NotBehind p) st st' ->
  st' = st /\ forall c, prev st = Some c -> p c = false.
Proof. inversion 1; subst; auto. Qed.

Lemma not_ahead_inv (p : N -> bool) (st st' : mstate) :
  matches (NotAhead p) st st' ->
  st' = st /\ starts_outside p (rest st).
Proof. inversion 1; subst; auto. Qed.

Lemma maybe_inv (x : text) (a : N) :
  forallb (chr a) x = true -> within (Some 1%nat) (length x) -> x = [] \/ x = [a].
Proof.
  destruct x as [|c [|d x]]; simpl; auto; [|lia].
  rewrite andb_true_r. unfold chr. intros Hc _.
  apply N.eqb_eq in Hc. subst. auto.
Qed.

(** A literal reads exactly its characters, each through the comparison
    [f] of the pattern. *)
Lemma lit_with_inv (f : N -> N -> bool) (l : text) :
  forall st st',
    matches (lit_with f l) st st' ->
    exists body,
      rest st = body ++ rest st' /\ Forall2 (fun a c => f a c = true) l body
      /\ prev st' = prev_after (prev st) body /\ group1 st' = group1 st.
Proof.
  induction l as [|a l IH]; intros st st' Hm; simpl in Hm.
  - inversion Hm; subst. exists []. auto.
  - inversion Hm as [| |? ? ? st2 ? H1 H2| | | | | | | |]; subst.
    inversion H1; subst. apply IH in H2.
    destruct H2 as [body [Hr [Hb [Hp Hg]]]]. simpl in *.
    exists (c :: body). simpl. rewrite Hr. repeat split; auto.
Qed.

Lemma lit_with_intro (f : N -> N -> bool) (l body : text) :
  Forall2 (fun a c => f a c = true) l body ->
  forall pv s g,
    matches (lit_with f l) (MState pv (body ++ s) g)
            (MState (prev_after pv body) s g).
Proof.
  induction 1 as [|a c l body Hac Hrest IH]; intros pv s g; simpl.
  - constructor.
  - econstructor; [constructor; exact Hac | apply IH].
Qed.

Lemma Forall2_chr (l body : text) :
  Forall2 (fun a c => chr a c = true) l body <-> body = l.
Proof.
  split.
  - induction 1 as [|a c l body Hac _ IH]; auto.
    unfold chr in Hac. apply N.eqb_eq in Hac. congruence.
  - intros ->. induction l; constructor; auto. unfold chr. apply N.eqb_refl.
Qed.

(** Group 1 is set by every match of a pattern all of whose branches go
    through the group. *)
Lemma matches_group (r : regex) (st st' : mstate) :
  matches r st st' ->
  sets_group r = true \/ group1 st <> None -> group1 st' <> None.
Proof.
  induction 1; simpl; intros [Hs|Hg]; try discriminate; auto.
  - apply orb_true_iff in Hs. destruct Hs as [Hs|Hs]; auto.
  - apply andb_true_iff in Hs. tauto.
  - apply andb_true_iff in Hs. tauto.
Qed.

Lemma search_group (r : regex) (s : text) (m : match_obj) :
  sets_group r = true -> search r s = Some m -> group_1 m <> None.
Proof.
  intros Hs Hm. apply search_from_sound in Hm.
  destruct Hm as [pre [s' [_ Hm]]]. apply match_at_sound in Hm.
  destruct Hm as [st' [Hm ->]]. simpl.
  eapply matches_group; eauto.
Qed.

End ReFacts.

(** ** Skills *)

Module SkillFacts.
Import Re ReFacts StrFacts.

Lemma insert_uniq_in (x y : text) (l : list text) :
  In y (insert_uniq x l) <-> y = x \/ In y l.
Proof.
  induction l as [|z l IH]; simpl.
  - intuition.
  - destruct (Str.compare x z) eqn:E; simpl.
    + apply compare_eq in E. subst. intuition.
    + intuition.
    + rewrite IH. intuition.
Qed.

Lemma sorted_set_in (y : text) (l : list text) : In y (sorted_set l) <-> In y l.
Proof.
  induction l as [|x l IH]; simpl; [tauto|].
  rewrite insert_uniq_in, IH. intuition.
Qed.

Lemma insert_uniq_sorted (x : text) (l : list text) :
  StronglySorted Str.lt l -> StronglySorted Str.lt (insert_uniq x l).
Proof.
  induction 1 as [|z l Hs IH Hall]; simpl.
  - repeat constructor.
  - destruct (Str.compare x z) eqn:E.
    + now constructor.
    + constructor; [now constructor|].
      constructor; auto.
      eapply Forall_impl; [|exact Hall]. intros a Ha. eapply lt_trans; eauto.
    + constructor; auto.
      apply Forall_forall. intros a Ha. apply insert_uniq_in in Ha.
      destruct Ha as [->|Ha].
      * unfold Str.lt. rewrite compare_antisym, E. reflexivity.
      * rewrite Forall_forall in Hall. auto.
Qed.

Lemma sorted_set_sorted (l : list text) : StronglySorted Str.lt (sorted_set l).
Proof.
  induction l; simpl; [constructor | now apply insert_uniq_sorted].
Qed.

Lemma filter_sorted (f : text -> bool) (l : list text) :
  StronglySorted Str.lt l -> StronglySorted Str.lt (filter f l).
Proof.
  induction 1 as [|z l Hs IH Hall]; simpl; [constructor|].
  destruct (f z); auto. constructor; auto.
  apply Forall_forall. intros a Ha. apply filter_In in Ha.
  rewrite Forall_forall in Hall. apply Hall. tauto.
Qed.

Lemma sorted_nodup (l : list text) : StronglySorted Str.lt l -> NoDup l.
Proof.
  induction 1 as [|z l Hs IH Hall]; constructor; auto.
  intros Hin. rewrite Forall_forall in Hall.
  exact (lt_irrefl (Hall z Hin)).
Qed.

Lemma prev_after_rev (pv : option N) (x : text) :
  prev_after pv x = match rev x with c :: _ => Some c | [] => pv end.
Proof.
  revert pv. induction x as [|c x IH]; intros pv; simpl; auto.
  change (prev_after pv (c :: x)) with (prev_after (Some c) x).
  rewrite IH. destruct (rev x); reflexivity.
Qed.

Section WithUnicode.
Context {U : UnicodeData}.

Lemma skill_re_spec (skill t : text) :
  is_some (search (skill_re skill) t) = true
  <-> occurs_between before_skill after_skill skill t.
Proof.
  rewrite search_spec. unfold skill_re, occurs_between. simpl seq. split.
  - intros [pre [s' [st' [-> Hm]]]].
    apply seq_inv in Hm. destruct Hm as [st1 [H1 Hm]].
    apply seq_inv in Hm. destruct Hm as [st2 [H2 H3]].
    apply not_behind_inv in H1. destruct H1 as [-> Hb].
    apply not_ahead_inv in H3. destruct H3 as [-> Ha].
    apply lit_with_inv in H2. destruct H2 as [body [Hr [Hbody _]]].
    apply Forall2_chr in Hbody. subst body. simpl in Hr, Hb.
    exists pre, (rest st2). split; [now rewrite Hr|]. split; [|assumption].
    rewrite prev_after_rev in Hb.
    destruct (rev pre); simpl; auto.
  - intros [pre [post [-> [Hb Ha]]]].
    exists pre, (skill ++ post), (MState (prev_after (prev_after None pre) skill) post None).
    split; auto.
    econstructor; [|econstructor].
    + constructor. simpl. rewrite prev_after_rev. intros c Hc.
      destruct (rev pre); [discriminate|]. injection Hc as <-. exact Hb.
    + apply lit_with_intro. now apply Forall2_chr.
    + constructor. exact Ha.
Qed.

Lemma find_skills_unfold (txt : text) (extra : option (list text)) :
  txt <> [] ->
  find_skills txt extra
  = filter (fun skill => is_some (search (skill_re skill) (padded txt)))
           (sorted_set (dictionary extra)).
Proof. intros Hne. unfold find_skills. destruct txt; [congruence | reflexivity]. Qed.

Lemma find_skills_in (txt : text) (extra : option (list text)) (s : text) :
  In s (find_skills txt extra)
  <-> txt <> [] /\ In s (dictionary extra)
      /\ occurs_between before_skill after_skill s (padded txt).
Proof.
  destruct txt as [|c txt'] eqn:E.
  - simpl. split; [tauto | intros [Hne _]; congruence].
  - rewrite <- E. assert (Hne : txt <> []) by (subst; discriminate).
    rewrite find_skills_unfold by assumption.
    rewrite filter_In, sorted_set_in, skill_re_spec. tauto.
Qed.

Lemma find_skills_sorted (txt : text) (extra : option (list text)) :
  StronglySorted Str.lt (find_skills txt extra).
Proof.
  unfold find_skills. destruct (Str.is_empty txt); [constructor|].
  apply filter_sorted, sorted_set_sorted.
Qed.

End WithUnicode.
End SkillFacts.

(** C5, as the code has it.  [find_skills] returns, in strictly
    increasing order (so without duplicates), the lower-cased dictionary
    terms that occur in the space-padded lower-cased text with no word
    character, '+', '#' or '.' just before and no word character, '+' or
    '-' just after; an empty text gives the empty list.  The four
    examples of the specification hold. *)
Theorem find_skills_spec {U : UnicodeData} (txt : text) (extra : option (list text)) :
  StronglySorted Str.lt (find_skills txt extra)
  /\ NoDup (find_skills txt extra)
  /\ (forall s,
        In s (find_skills txt extra)
        <-> txt <> [] /\ In s (dictionary extra)
            /\ occurs_between before_skill after_skill s
                 (padded txt))
  /\ find_skills (cp "Python PYTHON python") None = [cp "python"]
  /\ In (cp "go") (find_skills (cp "I code in Go.") None)
  /\ ~ In (cp "go") (find_skills (cp "I am going home") None)
  /\ In (cp "c++") (find_skills (cp "c++ and c#") None)
  /\ In (cp "c#") (find_skills (cp "c++ and c#") None).
Proof.
  split; [apply SkillFacts.find_skills_sorted|].
  split; [apply SkillFacts.sorted_nodup, SkillFacts.find_skills_sorted|].
  split; [intros s; apply SkillFacts.find_skills_in|].
  split; [vm_compute; reflexivity|].
  split; [vm_compute; auto|].
  split; [vm_compute; tauto|].
  split; vm_compute; auto.
Qed.

(** C5, the claim as written fails: in "go+" the term "go" has nothing
    before it and '+' after it, which the claimed rule accepts, and
    [find_skills] does not return it. *)
Lemma find_skills_plus_after :
  In (cp "go") (@dictionary ascii_only None)
  /\ occurs_between (@before_skill ascii_only) (@after_skill_claimed ascii_only)
       (cp "go") (@padded ascii_only (cp "go+"))
  /\ @find_skills ascii_only (cp "go+") None = [].
Proof.
  split; [|split].
  - vm_compute. auto 10.
  - exists [SP], (cp "+ "). vm_compute. auto.
  - vm_compute. reflexivity.
Qed.

(** ** Sections *)

Module SectionFacts.
Import Re ReFacts Str StrFacts.

Section WithUnicode.
Context {U : UnicodeData}.

Lemma header_re_inv (h ln : text) (st' : mstate) :
  matches (header_re h) (MState None ln None) st' ->
  exists ws0 body ws1 col tl,
    ln = ws0 ++ body ++ ws1 ++ col ++ tl
    /\ forallb isspace ws0 = true /\ ci_equal h body
    /\ forallb isspace ws1 = true
    /\ (col = [] \/ col = [58]) /\ (tl = [] \/ tl = [NL]).
Proof.
  unfold header_re. simpl seq. intros Hm.
  apply seq_inv in Hm. destruct Hm as [st1 [H1 Hm]].
  apply seq_inv in Hm. destruct Hm as [st2 [H2 Hm]].
  apply seq_inv in Hm. destruct Hm as [st3 [H3 Hm]].
  apply seq_inv in Hm. destruct Hm as [st4 [H4 Hm]].
  apply seq_inv in Hm. destruct Hm as [st5 [H5 H6]].
  apply bos_inv in H1. destruct H1 as [-> _].
  apply rep_inv in H2. destruct H2 as [ws0 [E2 [Hws0 _]]].
  apply lit_with_inv in H3. destruct H3 as [body [E3 [Hbody _]]].
  apply rep_inv in H4. destruct H4 as [ws1 [E4 [Hws1 _]]].
  apply rep_inv in H5. destruct H5 as [col [E5 [Hcol [_ [Hlen _]]]]].
  apply eos_inv in H6. destruct H6 as [-> Htl].
  exists ws0, body, ws1, col, (rest st5). simpl in E2.
  rewrite E2, E3, E4, E5. repeat split; auto.
  eapply maybe_inv; eauto.
Qed.

Lemma header_re_intro (h ln : text) :
  (exists ws0 body ws1 col tl,
      ln = ws0 ++ body ++ ws1 ++ col ++ tl
      /\ forallb isspace ws0 = true /\ ci_equal h body
      /\ forallb isspace ws1 = true
      /\ (col = [] \/ col = [58]) /\ (tl = [] \/ tl = [NL])) ->
  exists st', matches (header_re h) (MState None ln None) st'.
Proof.
  intros [ws0 [body [ws1 [col [tl [-> [H0 [Hb [H1 [Hc Ht]]]]]]]]]].
  unfold header_re. simpl seq. eexists.
  eapply M_Seq; [apply M_Bos; reflexivity|].
  eapply M_Seq; [apply M_Rep; [exact H0 | lia | exact I]|].
  eapply M_Seq; [apply lit_with_intro; exact Hb|].
  eapply M_Seq; [apply M_Rep; [exact H1 | lia | exact I]|].
  eapply M_Seq.
  - apply M_Rep with (x := col); [| lia |].
    + destruct Hc as [-> | ->]; reflexivity.
    + destruct Hc as [-> | ->]; simpl; lia.
  - apply M_Eos. exact Ht.
Qed.

Lemma forallb_rev_starts (f : N -> bool) (x : text) :
  forallb f x = true -> x <> [] -> ~ starts_outside f (rev x).
Proof.
  intros Hx Hne Hs.
  destruct (rev x) as [|c r] eqn:E.
  - apply (f_equal (@rev N)) in E. rewrite rev_involutive in E. auto.
  - simpl in Hs. rewrite forallb_forall in Hx.
    rewrite (Hx c) in Hs; [discriminate|].
    apply in_rev. rewrite E. now left.
Qed.

(** On a trimmed line the pattern of [h] matches exactly the shape. *)
Lemma header_match_trimmed (h ln : text) :
  stripped isspace ln ->
  (is_some (match_ (header_re h) ln) = true
   <-> exists body,
         ci_equal h body
         /\ (ln = body
             \/ exists ws, forallb isspace ws = true /\ ln = body ++ ws ++ [58])).
Proof.
  intros [Hl Hr]. split.
  - unfold match_. destruct (match_at (header_re h) None ln) as [m|] eqn:E;
      [|discriminate]. intros _.
    apply match_at_sound in E. destruct E as [st' [Hm _]].
    apply header_re_inv in Hm.
    destruct Hm as [ws0 [body [ws1 [col [tl [E [H0 [Hb [H1 [Hc Ht]]]]]]]]]].
    exists body. split; auto.
    assert (ws0 = []) as ->.
    { destruct ws0 as [|c ws0]; auto. subst ln. simpl in Hl, H0.
      rewrite Hl in H0. discriminate. }
    assert (tl = []) as ->.
    { destruct Ht as [->| ->]; auto. exfalso. subst ln.
      rewrite !app_assoc, rev_app_distr in Hr. simpl in Hr. discriminate. }
    simpl in E. rewrite app_nil_r in E.
    destruct Hc as [-> | ->].
    + left. rewrite app_nil_r in E.
      destruct ws1 as [|c ws1]; [now rewrite app_nil_r in E|].
      exfalso. subst ln. rewrite rev_app_distr in Hr.
      apply starts_outside_app in Hr.
      * revert Hr. apply forallb_rev_starts; [assumption | discriminate].
      * intros E. apply (f_equal (@rev N)) in E. rewrite rev_involutive in E.
        discriminate.
    + right. eauto.
  - intros [body [Hb Hs]]. unfold match_.
    assert (exists st', matches (header_re h) (MState None ln None) st') as [st' Hm].
    + apply header_re_intro. destruct Hs as [-> | [ws [Hws ->]]].
      * exists [], body, [], [], []. rewrite !app_nil_r. simpl. auto 10.
      * exists [], body, ws, [58], []. simpl. auto 10.
    + eapply match_at_complete; eauto.
Qed.

Lemma first_header_some (pats : list (text * regex)) (ln : text) :
  first_header pats ln <> None
  <-> exists h pat, In (h, pat) pats /\ is_some (match_ pat ln) = true.
Proof.
  induction pats as [|[h pat] pats IH]; simpl.
  - split; [congruence | intros [? [? [[] _]]]].
  - destruct (is_some (match_ pat ln)) eqn:E.
    + split; [|discriminate]. intros _. exists h, pat. auto.
    + rewrite IH. split.
      * intros [h' [pat' [Hin Hm]]]. eauto.
      * intros [h' [pat' [[Heq|Hin] Hm]]]; eauto.
        injection Heq as <- <-. congruence.
Qed.

(** C3, header lines: a trimmed line is a header exactly when it has
    the header shape. *)
Lemma header_line_iff (ln : text) :
  stripped isspace ln ->
  (first_header header_patterns ln <> None <-> header_shape ln).
Proof.
  intros Hs. rewrite first_header_some. unfold header_shape, header_patterns,
    marker_phrases. split.
  - intros [h [pat [Hin Hm]]]. apply in_map_iff in Hin.
    destruct Hin as [[h' k] [E Hin]]. simpl in E. injection E as <- <-.
    apply header_match_trimmed in Hm; auto. destruct Hm as [body [Hb Hsh]].
    exists h', body. split; auto. apply in_map_iff. exists (h', k). auto.
  - intros [h [body [Hin [Hb Hsh]]]]. apply in_map_iff in Hin.
    destruct Hin as [[h' k] [E Hin]]. simpl in E. subst h'.
    exists h, (header_re h). split.
    + apply in_map_iff. exists (h, k). auto.
    + apply header_match_trimmed; eauto.
Qed.

(** The key found by the inner loop is a key of [header_map]:
    [header_map[matched]] does not raise. *)
Lemma header_lookup_ok (m : list (text * string)) (ln h : text) :
  first_header (map (fun item => (fst item, header_re (fst item))) m) ln = Some h ->
  exists k, header_lookup h m = Ok k.
Proof.
  induction m as [|[h' k'] m IH]; simpl; [discriminate|].
  destruct (is_some (match_ (header_re h') ln)).
  - intros E. injection E as <-. rewrite eqb_refl. eauto.
  - intros E. destruct (Str.eqb h' h); eauto.
Qed.

Lemma is_header_kind (ln : text) :
  is_header ln = true <-> exists k, header_kind ln = Some k.
Proof.
  unfold is_header, header_kind.
  destruct (first_header header_patterns ln) as [h|] eqn:E.
  - destruct (header_lookup_ok header_map ln E) as [k ->]. split; eauto.
  - split; [discriminate | intros [k Hk]; discriminate].
Qed.

Lemma is_header_false (ln : text) : is_header ln = false <-> header_kind ln = None.
Proof.
  destruct (is_header ln) eqn:E.
  - apply is_header_kind in E. destruct E as [k ->]. split; discriminate.
  - split; auto. intros _.
    destruct (header_kind ln) as [k|] eqn:Ek; auto.
    assert (is_header ln = true) by (apply is_header_kind; eauto). congruence.
Qed.

(** One turn of the loop never raises. *)
Lemma split_step_ok (st : split_state) (ln : text) :
  split_step st ln
  = Ok match header_kind ln with
       | Some k => SplitState (sections (flush st)) k (current_lines (flush st))
       | None => SplitState (sections st) (current_name st) (current_lines st ++ [ln])
       end.
Proof.
  unfold split_step, header_kind.
  destruct (first_header header_patterns ln) as [h|] eqn:E; auto.
  destruct (header_lookup_ok header_map ln E) as [k ->]. reflexivity.
Qed.

Lemma flush_sections (st : split_state) :
  sections (flush st)
  = sections st ++ close_section (current_name st) (current_lines st).
Proof.
  unfold flush, close_section. destruct (current_lines st); simpl; auto.
  now rewrite app_nil_r.
Qed.

Lemma flush_lines (st : split_state) : current_lines (flush st) = [].
Proof. unfold flush. destruct (current_lines st) eqn:E; simpl; auto. Qed.

(** The loop with its shared variables computes the segmentation of the
    specification. *)
Lemma split_loop_refines (lines : list text) :
  forall st,
    exists st',
      split_loop st lines = Ok st'
      /\ sections (flush st')
         = sections st ++ segment_spec (current_name st) (current_lines st) lines.
Proof.
  induction lines as [|ln lines IH]; intros st.
  - exists st. split; auto. apply flush_sections.
  - cbn [split_loop]. rewrite split_step_ok. cbn [bind segment_spec].
    destruct (header_kind ln) as [k|].
    + destruct (IH (SplitState (sections (flush st)) k (current_lines (flush st))))
        as [st' [E1 E2]].
      exists st'. split; auto. rewrite E2. simpl.
      rewrite flush_lines, flush_sections, app_assoc. reflexivity.
    + destruct (IH (SplitState (sections st) (current_name st) (current_lines st ++ [ln])))
        as [st' [E1 E2]].
      exists st'. split; auto.
Qed.

Theorem split_sections_refines (txt : text) :
  split_sections txt
  = Ok match segment_spec "body" [] (content_lines txt) with
       | [] => [("body"%string, match content_lines txt with [] => [] | _ => txt end)]
       | secs => secs
       end.
Proof.
  unfold split_sections. fold (content_lines txt).
  destruct txt as [|c txt']; [reflexivity|]. cbn [is_empty].
  destruct (content_lines (c :: txt')) as [|l ls] eqn:E; [reflexivity|].
  destruct (split_loop_refines (l :: ls) (SplitState [] "body" [])) as [st' [-> E2]].
  cbn [sections current_name current_lines app] in E2.
  cbn [bind]. rewrite E2.
  destruct (segment_spec "body" [] (l :: ls)); reflexivity.
Qed.

Lemma content_lines_good (txt : text) : Forall good_line (content_lines txt).
Proof.
  unfold content_lines. apply Forall_forall. intros l Hl.
  apply in_map_iff in Hl. destruct Hl as [l0 [<- Hin]].
  apply filter_In in Hin. destruct Hin as [_ Hnb].
  split; [|apply strip_with_stripped].
  unfold nonblank in Hnb. apply negb_true_iff in Hnb. now apply is_empty_false.
Qed.

Lemma join_good (ls : list text) :
  Forall good_line ls -> ls <> [] -> good_line (join [NL] ls).
Proof.
  induction 1 as [|l ls [Hne [Hl Hr]] Hall IH]; [congruence|]. intros _.
  destruct ls as [|l' ls]; [now repeat split|].
  rewrite join_cons by discriminate.
  destruct IH as [Hne' [Hl' Hr']]; [discriminate|].
  split; [|split].
  - destruct l; simpl; congruence.
  - destruct l; simpl in *; congruence.
  - rewrite !rev_app_distr.
    destruct (rev (join [NL] (l' :: ls))) eqn:E; [|exact Hr'].
    apply (f_equal (@rev N)) in E. rewrite rev_involutive in E. contradiction.
Qed.

Lemma close_section_good (kind : string) (acc : list text) :
  Forall good_line acc ->
  close_section kind acc
  = match acc with [] => [] | _ => [(kind, join [NL] acc)] end
  /\ Forall (fun sec => snd sec <> []) (close_section kind acc).
Proof.
  intros Hacc. destruct acc as [|l ls]; simpl; auto.
  destruct (@join_good (l :: ls) Hacc) as [Hne Hs]; [discriminate|].
  unfold strip. rewrite strip_with_id by assumption.
  split; auto.
Qed.

(** Only sections with text are emitted. *)
Lemma segment_nonempty (lines : list text) :
  Forall good_line lines ->
  forall kind acc,
    Forall good_line acc ->
    Forall (fun sec => snd sec <> []) (segment_spec kind acc lines).
Proof.
  induction 1 as [|ln lines Hln Hall IH]; intros kind acc Hacc; cbn [segment_spec].
  - now apply close_section_good.
  - destruct (header_kind ln).
    + apply Forall_app. split; [now apply close_section_good | apply IH; constructor].
    + apply IH. apply Forall_app. auto.
Qed.

(** A header line that is followed at once by another header line leaves
    no section of its own. *)
Lemma segment_header_header (l1 l2 : list text) (h1 h2 : text) :
  is_header h1 = true -> is_header h2 = true ->
  forall kind acc,
    segment_spec kind acc (l1 ++ h1 :: h2 :: l2)
    = segment_spec kind acc (l1 ++ h2 :: l2).
Proof.
  intros H1 H2. apply is_header_kind in H1, H2.
  destruct H1 as [k1 H1]. destruct H2 as [k2 H2].
  induction l1 as [|ln l1 IH]; intros kind acc; cbn [app segment_spec].
  - rewrite H1, H2. reflexivity.
  - destruct (header_kind ln); now rewrite IH.
Qed.

Lemma segment_no_header (lines : list text) :
  (forall ln, In ln lines -> is_header ln = false) ->
  forall kind acc, segment_spec kind acc lines = close_section kind (acc ++ lines).
Proof.
  induction lines as [|ln lines IH]; intros Hno kind acc; cbn [segment_spec].
  - now rewrite app_nil_r.
  - rewrite (proj1 (is_header_false ln)) by (apply Hno; now left).
    rewrite IH by (intros; apply Hno; now right).
    now rewrite <- app_assoc.
Qed.

Lemma split_sections_no_header (txt : text) :
  (forall ln, In ln (content_lines txt) -> is_header ln = false) ->
  split_sections txt = Ok [("body"%string, join [NL] (content_lines txt))].
Proof.
  intros Hno. rewrite split_sections_refines, segment_no_header by assumption.
  simpl app.
  destruct (close_section_good "body" (content_lines_good txt)) as [-> _].
  destruct (content_lines txt); reflexivity.
Qed.

(** [split_sections] never raises. *)
Lemma split_sections_ok (txt : text) : exists secs, split_sections txt = Ok secs.
Proof. rewrite split_sections_refines. eauto. Qed.

(** After cleaning there is one line, so one section. *)
Lemma content_lines_clean (x : text) :
  clean_text x <> [] -> content_lines (clean_text x) = [clean_text x].
Proof.
  intros Hne. unfold content_lines.
  rewrite split_none by apply CleanFacts.clean_text_no_newline.
  cbn [filter]. unfold nonblank. rewrite CleanFacts.clean_text_strip.
  rewrite (proj2 (is_empty_false _) Hne). cbn [negb map].
  now rewrite CleanFacts.clean_text_strip.
Qed.

Lemma split_sections_clean (x : text) :
  split_sections (clean_text x) = Ok [("body"%string, clean_text x)].
Proof.
  destruct (clean_text x) as [|c t] eqn:E; [reflexivity|].
  rewrite <- E. assert (Hne : clean_text x <> []) by (rewrite E; discriminate).
  rewrite split_sections_refines, content_lines_clean by assumption.
  cbn [segment_spec]. destruct (header_kind (clean_text x)).
  - reflexivity.
  - simpl. rewrite CleanFacts.clean_text_strip. reflexivity.
Qed.

Lemma ci_equalb_spec (h body : text) : ci_equal h body <-> ci_equalb h body = true.
Proof.
  unfold ci_equal. split.
  - induction 1; simpl; auto. now apply andb_true_iff.
  - revert body. induction h as [|a h IH]; intros [|c body]; simpl;
      try discriminate; [constructor|].
    intros Hb. apply andb_true_iff in Hb. constructor; [tauto | apply IH; tauto].
Qed.

(** On ASCII text, equal up to case is equal after lower-casing. *)
Lemma ci_equal_ascii (h body : text) :
  forallb is_ascii body = true ->
  (ci_equal h body <-> map ascii_lower h = map ascii_lower body).
Proof.
  unfold ci_equal. revert body. induction h as [|a h IH]; intros [|c body] Hb.
  - split; [reflexivity | constructor].
  - split; [intros Hf; inversion Hf | discriminate].
  - split; [intros Hf; inversion Hf | discriminate].
  - simpl in Hb. apply andb_true_iff in Hb. destruct Hb as [Hc Hb].
    specialize (IH body Hb). split.
    + intros Hf. inversion Hf as [|? ? ? ? Hac Hrest]; subst.
      unfold ci in Hac. rewrite Hc in Hac. apply N.eqb_eq in Hac.
      simpl. f_equal; [exact Hac | now apply IH].
    + simpl. intros E. injection E as E1 E2. constructor.
      * unfold ci. rewrite Hc. now apply N.eqb_eq.
      * now apply IH.
Qed.

End WithUnicode.
End SectionFacts.

(** C4.  A cleaned text is collapsed and trimmed, so it holds no
    newline (and no white space but single spaces), and the section
    splitter returns it as the single section "body"; the job parser's
    lookup of a named section then finds nothing. *)
Theorem split_sections_after_clean {U : UnicodeData} (raw : text) :
  ~ In NL (clean_text raw)
  /\ normal (clean_text raw)
  /\ (forall c, In c (clean_text raw) -> isspace c = true -> c = SP)
  /\ split_sections (clean_text raw) = Ok [("body"%string, clean_text raw)]
  /\ _find_section (clean_text raw) ["responsibilities"%string] = Ok []
  /\ _find_section (clean_text raw) ["requirements"%string] = Ok [].
Proof.
  pose proof (CleanFacts.clean_text_normal raw) as Hn.
  split; [apply CleanFacts.clean_text_no_newline|].
  split; [exact Hn|].
  split; [intros c; apply CleanFacts.collapsed_space, Hn|].
  split; [apply SectionFacts.split_sections_clean|].
  unfold _find_section. rewrite SectionFacts.split_sections_clean.
  split; reflexivity.
Qed.

(** ** The job parser *)

Module JobFacts.
Import Re ReFacts Str StrFacts.

Section WithUnicode.
Context {U : UnicodeData}.

(** A pattern whose every branch goes through group 1 never makes
    [_extract_first_match] raise. *)
Lemma extract_first_match_ok (r : regex) (txt : text) :
  sets_group r = true -> _extract_first_match r txt = Ok (first_group r txt).
Proof.
  intros Hs. unfold _extract_first_match, first_group.
  destruct (search r txt) as [m|] eqn:E; auto.
  pose proof (@search_group r txt m Hs E) as Hg.
  destruct (group_1 m); [reflexivity | congruence].
Qed.

Lemma extract_job_text_fields (raw : text) :
  extract_job_text raw = Ok (job_fields (clean_text raw)).
Proof.
  unfold extract_job_text.
  rewrite !extract_first_match_ok by reflexivity. cbn [bind].
  unfold _find_section. rewrite SectionFacts.split_sections_clean.
  cbn [bind first_section existsb String.eqb Ascii.eqb Bool.eqb orb Str.is_empty].
  rewrite !extract_first_match_ok by reflexivity. cbn [bind].
  reflexivity.
Qed.

(** On a text without newline the keyword lines are the text or nothing. *)
Lemma keyword_lines_one (keys : list string) (txt : text) :
  ~ In NL txt -> keyword_lines keys txt = txt \/ keyword_lines keys txt = [].
Proof.
  intros Hn. unfold keyword_lines. rewrite split_none by assumption.
  simpl. destruct (has_keyword (map cp keys) txt); auto.
Qed.

Lemma or_else_nil (a : text) : or_else a [] = a.
Proof. destruct a; reflexivity. Qed.

(** An occurrence of a term without the separator in [x ++ sep :: y]
    lies in [x] or in [y]. *)
Lemma occurrence_side (sep : N) (s pre post x y : text) :
  s <> [] -> ~ In sep s ->
  pre ++ s ++ post = x ++ sep :: y ->
  (exists post', x = pre ++ s ++ post' /\ post = post' ++ sep :: y)
  \/ (exists pre', y = pre' ++ s ++ post /\ pre = x ++ sep :: pre').
Proof.
  intros Hne Hsep E.
  apply app_eq_app in E. destruct E as [l [[E1 E2]|[E1 E2]]].
  - (* the cut lies in [pre] *)
    destruct l as [|c l].
    + simpl in E2. destruct s as [|c s]; [congruence|].
      injection E2 as <- _. exfalso. apply Hsep. now left.
    + injection E2 as <- E2. right. exists l. split; auto.
  - (* the cut lies in [s ++ post] *)
    left. apply app_eq_app in E2. destruct E2 as [m [[E3 E4]|[E3 E4]]].
    + destruct m as [|c m].
      * exists []. rewrite app_nil_r in E3. simpl in E4. subst.
        now rewrite app_nil_r.
      * injection E4 as <- _. exfalso. apply Hsep. rewrite E3.
        apply in_or_app. right. now left.
    + exists m. split; auto. now rewrite E1, E3.
Qed.

Lemma mem_in (cs : text) (c : N) : Str.mem cs c = true <-> In c cs.
Proof.
  unfold Str.mem. rewrite existsb_exists. split.
  - intros [d [Hin Hd]]. apply N.eqb_eq in Hd. now subst.
  - intros Hin. exists c. split; auto. apply N.eqb_refl.
Qed.

Lemma plain_term_spec (s : text) :
  plain_term s = true -> s <> [] /\ ~ In SP s /\ ~ In NL s.
Proof.
  unfold plain_term. rewrite !andb_true_iff, !negb_true_iff.
  intros [[H1 H2] H3]. split; [now apply is_empty_false|].
  split; intros Hin; apply mem_in in Hin; congruence.
Qed.

Lemma starts_outside_swap (f : N -> bool) (u v w : text) :
  starts_outside f (u ++ v) -> starts_outside f w -> starts_outside f (u ++ w).
Proof. destruct u; simpl; auto. Qed.

(** Joining two lowered texts with a newline neither adds nor removes
    an occurrence of a plain term. *)
Lemma occurs_joined (s a b : text) :
  plain_term s = true ->
  occurs_between before_skill after_skill s (SP :: a ++ NL :: b ++ [SP])
  <-> occurs_between before_skill after_skill s (SP :: a ++ [SP])
      \/ occurs_between before_skill after_skill s (SP :: b ++ [SP]).
Proof.
  intros Hp. apply plain_term_spec in Hp. destruct Hp as [Hne [Hsp Hnl]].
  unfold occurs_between. split.
  - intros [pre [post [E [Hb Ha]]]].
    change (SP :: a ++ NL :: b ++ [SP]) with ((SP :: a) ++ NL :: (b ++ [SP])) in E.
    symmetry in E. apply occurrence_side in E; auto.
    destruct E as [[post' [E1 E2]]|[pre' [E1 E2]]].
    + left. exists pre, (post' ++ [SP]). split; [|split; auto].
      * change (SP :: a ++ [SP]) with ((SP :: a) ++ [SP]).
        rewrite E1, <- !app_assoc. reflexivity.
      * subst post. eapply starts_outside_swap; eauto. reflexivity.
    + right. exists (SP :: pre'), post. split; [|split; auto].
      * simpl. now rewrite E1.
      * subst pre. rewrite rev_app_distr in Hb. simpl in Hb.
        rewrite <- !app_assoc in Hb. simpl.
        eapply starts_outside_swap; eauto. reflexivity.
  - intros [[pre [post [E [Hb Ha]]]]|[pre [post [E [Hb Ha]]]]].
    + change (SP :: a ++ [SP]) with ((SP :: a) ++ SP :: []) in E.
      symmetry in E. apply occurrence_side in E; auto.
      destruct E as [[post' [E1 E2]]|[pre' [E1 E2]]].
      * exists pre, (post' ++ NL :: b ++ [SP]). split; [|split; auto].
        -- change (SP :: a ++ NL :: b ++ [SP]) with ((SP :: a) ++ NL :: b ++ [SP]).
           rewrite E1, <- !app_assoc. reflexivity.
        -- subst post. eapply starts_outside_swap; eauto. reflexivity.
      * exfalso. destruct pre'; destruct s; simpl in E1; congruence.
    + change (SP :: b ++ [SP]) with ([] ++ SP :: (b ++ [SP])) in E.
      symmetry in E. apply occurrence_side in E; auto.
      destruct E as [[post' [E1 E2]]|[pre' [E1 E2]]].
      * exfalso. destruct pre; destruct s; simpl in E1; congruence.
      * exists (SP :: a ++ NL :: pre'), post. split; [|split; auto].
        -- simpl. rewrite <- app_assoc. simpl. now rewrite E1.
        -- subst pre. simpl in Hb. simpl.
           rewrite rev_app_distr. simpl. rewrite <- !app_assoc.
           eapply starts_outside_swap; eauto. reflexivity.
Qed.

Lemma occurs_blank (s : text) :
  plain_term s = true ->
  ~ occurs_between before_skill after_skill s (SP :: [] ++ [SP]).
Proof.
  intros Hp. apply plain_term_spec in Hp. destruct Hp as [Hne [Hsp _]].
  intros [pre [post [E _]]].
  destruct s as [|c s]; [congruence|].
  assert (Hin : In c (SP :: [] ++ [SP])).
  { rewrite E. apply in_or_app. right. now left. }
  simpl in Hin. apply Hsp. destruct Hin as [<-|[<-|[]]]; now left.
Qed.

Lemma default_terms_plain :
  Forall (fun s => plain_term s = true) (sorted_set (dictionary None)).
Proof.
  apply Forall_forall. apply forallb_forall. vm_compute. reflexivity.
Qed.

Lemma lower_nil : Str.lower [] = [].
Proof. reflexivity. Qed.

(** With the default dictionary, a text put in front of [b] and
    separated from it by a newline changes nothing when it is empty or
    [b] itself. *)
Lemma find_skills_joined (a b : text) :
  a = [] \/ a = b ->
  find_skills (a ++ [NL] ++ b) None = find_skills b None.
Proof.
  intros Hab. pose proof (lower_lines a b) as Hlow.
  pose proof default_terms_plain as Hplain. rewrite Forall_forall in Hplain.
  assert (Hocc : forall s, In s (sorted_set (dictionary None)) ->
            is_some (search (skill_re s) (padded (a ++ [NL] ++ b)))
            = is_some (search (skill_re s) (padded b))).
  { intros s Hin. specialize (Hplain s Hin).
    assert (Hiff : occurs_between before_skill after_skill s (padded (a ++ [NL] ++ b))
                   <-> occurs_between before_skill after_skill s (padded b)).
    { unfold padded. simpl app. rewrite Hlow.
      rewrite <- app_assoc. simpl app. rewrite (@occurs_joined s _ _ Hplain).
      destruct Hab as [-> | ->]; [|tauto].
      rewrite lower_nil. pose proof (@occurs_blank s Hplain). tauto. }
    rewrite <- !SkillFacts.skill_re_spec in Hiff.
    destruct (is_some (search (skill_re s) (padded (a ++ [NL] ++ b))));
      destruct (is_some (search (skill_re s) (padded b))); intuition congruence. }
  rewrite SkillFacts.find_skills_unfold by (destruct a; discriminate).
  rewrite (filter_ext_in _ _ _ Hocc).
  destruct b as [|c b'] eqn:Eb.
  - (* nothing occurs in a blank text *)
    cbn [find_skills Str.is_empty].
    rewrite (filter_ext_in _ (fun _ => false)); [apply filter_false|].
    intros s Hin. specialize (Hplain s Hin).
    destruct (is_some (search (skill_re s) (padded []))) eqn:E; auto.
    apply SkillFacts.skill_re_spec in E. exfalso.
    revert E. apply occurs_blank. exact Hplain.
  - now rewrite SkillFacts.find_skills_unfold by discriminate.
Qed.

End WithUnicode.
End JobFacts.

(** C6, what the code returns on the end-to-end job example.  The
    cleaned text is one line, so the title and the company run to the
    end of the document, the experience runs on into the degree, and
    the education is the "Ba" of "Backend". *)
Theorem extract_job_text_example {U : UnicodeData} :
  extract_job_text job_example
  = Ok [ ("title",
            VStr (cp "Backend Engineer Company: Acme Requirements 3+ years of experience Bachelor's degree"));
         ("company",
            VStr (cp "Acme Requirements 3+ years of experience Bachelor's degree"));
         ("skills_required", VList []);
         ("experience_required",
            VStr (cp "3+ years of experience Bachelor's degree"));
         ("education_required", VStr (cp "Ba"));
         ("responsibilities", VList []);
         ("location", VNone);
         ("raw_text",
            VStr (cp "Job Title: Backend Engineer Company: Acme Requirements 3+ years of experience Bachelor's degree"))
       ]%string.
Proof. vm_compute. reflexivity. Qed.

(** C7, what the code returns on bullet lines.  The marks '-' and the
    bullet sign are stripped before the lines are tested, and a digit
    counts only when the second character is a digit too: a line
    "- Build APIs" or "1. Design" is not preferred to a plain line, and
    no returned line ever starts with '-' or the bullet sign. *)
Theorem extract_bullets_marks_stripped {U : UnicodeData} :
  _extract_bullets (cp "- Build APIs" ++ [NL] ++ cp "Overview")
  = [cp "Build APIs"; cp "Overview"]
  /\ _extract_bullets (cp "1. Design" ++ [NL] ++ cp "Overview")
     = [cp "1. Design"; cp "Overview"]
  /\ _extract_bullets (cp "* Ship" ++ [NL] ++ cp "Overview") = [cp "* Ship"]
  /\ forall section_text ln,
       In ln (_extract_bullets section_text) ->
       Str.startswith [45] ln = false /\ Str.startswith [BULLET] ln = false.
Proof.
  split; [vm_compute; reflexivity|].
  split; [vm_compute; reflexivity|].
  split; [vm_compute; reflexivity|].
  intros section_text ln Hin.
  assert (Hs : starts_outside (Str.mem [SP; 45; BULLET; 9]) ln).
  { unfold _extract_bullets in Hin.
    set (lines := map _ _) in Hin.
    assert (Hl : In ln lines).
    { destruct (filter _ lines) eqn:E.
      - eapply firstn_in; eauto.
      - rewrite <- E in Hin. apply filter_In in Hin. tauto. }
    apply in_map_iff in Hl. destruct Hl as [l0 [<- _]].
    apply StrFacts.strip_with_stripped. }
  destruct ln as [|c ln]; [split; reflexivity|].
  simpl in Hs. unfold Str.mem in Hs. simpl in Hs.
  apply orb_false_iff in Hs. destruct Hs as [_ Hs].
  apply orb_false_iff in Hs. destruct Hs as [H1 Hs].
  apply orb_false_iff in Hs. destruct Hs as [H2 _].
  cbn [Str.startswith].
  rewrite (N.eqb_sym 45 c), (N.eqb_sym BULLET c), H1, H2. split; reflexivity.
Qed.

Lemma lookup_skills_required (t c s e d r l x : value) :
  lookup "skills_required"
    [ ("title", t); ("company", c); ("skills_required", s);
      ("experience_required", e); ("education_required", d);
      ("responsibilities", r); ("location", l); ("raw_text", x) ]%string
  = Some s.
Proof. reflexivity. Qed.

(** C10.  Whatever the text, the job parser's [skills_required] is
    [find_skills] of the cleaned text alone: the requirements text put
    in front of it is the cleaned text itself or empty (the header
    lookup finds nothing, the keyword lines are lines of the text), and
    no skill of the dictionary holds white space. *)
Theorem job_skills_from_text {U : UnicodeData} (raw : text) :
  exists data,
    extract_job_text raw = Ok data
    /\ lookup "skills_required" data
       = Some (VList (find_skills (clean_text raw) None))
    /\ _find_section (clean_text raw) ["requirements"%string] = Ok []
    /\ (requirements_of (clean_text raw) = clean_text raw
        \/ requirements_of (clean_text raw) = [])
    /\ Forall (fun s => plain_term s = true) (sorted_set (dictionary None)).
Proof.
  exists (job_fields (clean_text raw)).
  split; [apply JobFacts.extract_job_text_fields|].
  pose proof (@JobFacts.keyword_lines_one U
                ["requirements"; "must have"; "qualifications"]%string
                (clean_text raw) (CleanFacts.clean_text_no_newline raw)) as Hreq.
  fold (requirements_of (clean_text raw)) in Hreq.
  split; [|split; [|split; [exact Hreq | apply JobFacts.default_terms_plain]]].
  - unfold job_fields. rewrite lookup_skills_required.
    rewrite JobFacts.or_else_nil. do 2 f_equal.
    destruct Hreq as [-> | ->]; apply JobFacts.find_skills_joined; auto.
  - unfold _find_section. rewrite SectionFacts.split_sections_clean. reflexivity.
Qed.

(** ** The resume parser and the manager *)

Module ManagerFacts.
Import Str StrFacts.

Section WithHost.
Context {U : UnicodeData} {H : Host}.

Lemma extract_resume_text_fields (raw : text) :
  extract_resume_text raw = Ok (resume_fields (clean_text raw)).
Proof.
  unfold extract_resume_text.
  rewrite SectionFacts.split_sections_clean. cbn [bind].
  reflexivity.
Qed.

Lemma opt_value_optional (o : option text) : optional_string (opt_value o).
Proof. destruct o; [right; eexists; reflexivity | left; reflexivity]. Qed.

Lemma resume_fields_complete (txt : text) :
  has_fields resume_singular resume_lists (resume_fields txt).
Proof.
  split; [|split].
  - intros k Hk. simpl in Hk.
    repeat (destruct Hk as [<-|Hk];
            [eexists; split; [reflexivity | apply opt_value_optional]|]).
    contradiction.
  - intros k Hk. simpl in Hk.
    repeat (destruct Hk as [<-|Hk];
            [eexists; split; [reflexivity | eexists; reflexivity]|]).
    contradiction.
  - eexists. reflexivity.
Qed.

Lemma job_fields_complete (txt : text) :
  has_fields job_singular job_lists (job_fields txt).
Proof.
  split; [|split].
  - intros k Hk. simpl in Hk.
    repeat (destruct Hk as [<-|Hk];
            [eexists; split; [reflexivity | apply opt_value_optional]|]).
    contradiction.
  - intros k Hk. simpl in Hk.
    repeat (destruct Hk as [<-|Hk];
            [eexists; split; [reflexivity | eexists; reflexivity]|]).
    contradiction.
  - eexists. reflexivity.
Qed.

Lemma marker_score_counts (markers : list text) (t : text) :
  NoDup markers ->
  exists present,
    NoDup present
    /\ (forall m, In m present <-> In m markers /\ substring m t)
    /\ marker_score markers t = length present.
Proof.
  intros Hnd. exists (filter (fun m => contains m t) markers).
  split; [now apply NoDup_filter|]. split; [|reflexivity].
  intros m. rewrite filter_In, contains_spec. reflexivity.
Qed.

Lemma markers_nodup : NoDup resume_markers /\ NoDup job_markers.
Proof.
  split; repeat (constructor; [vm_compute; intuition discriminate|]); constructor.
Qed.

(** What [parse] returns once the file has been read *)
Lemma parse_result (file_path x : text) :
  _read_any file_path = Ok x ->
  exists data normalized,
    parse file_path
    = Ok [ ("type", VStr (doc_type_name (classify x)));
           ("data", VDict data);
           ("normalized", VDict normalized) ]%string
    /\ match classify x with
       | resume => extract_resume_data file_path = Ok data
       | job => extract_job_data file_path = Ok data
       | unknown =>
           data = []
           /\ normalized = [("raw_text"%string, VStr (clean_text x))]
       end.
Proof.
  intros Hread.
  unfold parse, detect_file_type, extract_resume_data, extract_job_data.
  rewrite Hread. cbn [bind].
  destruct (classify x).
  - rewrite extract_resume_text_fields. cbn [bind].
    do 2 eexists. split; reflexivity.
  - rewrite JobFacts.extract_job_text_fields. cbn [bind].
    do 2 eexists. split; reflexivity.
  - do 2 eexists. split; [reflexivity | split; reflexivity].
Qed.

End WithHost.
End ManagerFacts.

(** C2.  The score of a marker list is the number of its (distinct)
    markers that are substrings of the lower-cased cleaned text; both
    scores zero gives unknown, equal scores give resume, otherwise the
    higher score wins; one marker of each kind gives resume. *)
Theorem classify_spec {U : UnicodeData} {H : Host} (raw : text) :
  let lower := Str.lower (clean_text raw) in
  let resume_score := marker_score resume_markers lower in
  let job_score := marker_score job_markers lower in
  (forall markers, In markers [resume_markers; job_markers] ->
     exists present,
       NoDup present
       /\ (forall m, In m present <-> In m markers /\ substring m lower)
       /\ marker_score markers lower = length present)
  /\ (resume_score = 0%nat /\ job_score = 0%nat -> classify raw = unknown)
  /\ (resume_score = job_score -> resume_score <> 0%nat -> classify raw = resume)
  /\ (job_score < resume_score -> classify raw = resume)%nat
  /\ (resume_score < job_score -> classify raw = job)%nat
  /\ (resume_score = 1%nat -> job_score = 1%nat -> classify raw = resume)
  /\ (forall file_path, detect_file_type file_path (Some raw) = Ok (classify raw))
  /\ classify (cp "resume company") = resume
  /\ classify [] = unknown.
Proof.
  intros lower resume_score job_score.
  assert (Hdec : classify raw
                 = if (resume_score =? 0)%nat && (job_score =? 0)%nat then unknown
                   else if (job_score <=? resume_score)%nat then resume else job)
    by reflexivity.
  split.
  { intros markers [<-|[<-|[]]]; apply ManagerFacts.marker_score_counts;
      apply ManagerFacts.markers_nodup. }
  split.
  { intros [-> ->]. rewrite Hdec. reflexivity. }
  split.
  { intros E Hne. rewrite Hdec, <- E.
    destruct (Nat.eqb_spec resume_score 0); [contradiction|].
    simpl. now rewrite Nat.leb_refl. }
  split.
  { intros Hlt. rewrite Hdec.
    destruct (Nat.eqb_spec resume_score 0); [lia|]. simpl.
    destruct (Nat.leb_spec job_score resume_score); [reflexivity | lia]. }
  split.
  { intros Hlt. rewrite Hdec.
    destruct (Nat.eqb_spec job_score 0); [lia|]. rewrite andb_false_r.
    destruct (Nat.leb_spec job_score resume_score); [lia | reflexivity]. }
  split.
  { intros E1 E2. rewrite Hdec, E1, E2. reflexivity. }
  split; [reflexivity|].
  split; vm_compute; reflexivity.
Qed.

(** C1.  When the file reads as [x], [parse] returns the record whose
    type is the classifier's result on [x]; for a resume or a job its
    data is what the standalone extractor returns, for an unknown
    document the data is empty and the normalized view holds the
    cleaned text; the empty text is unknown. *)
Theorem parse_spec {U : UnicodeData} {H : Host} (file_path x : text) :
  _read_any file_path = Ok x ->
  detect_file_type file_path None = Ok (classify x)
  /\ (exists data normalized,
        parse file_path
        = Ok [ ("type", VStr (doc_type_name (classify x)));
               ("data", VDict data);
               ("normalized", VDict normalized) ]%string
        /\ match classify x with
           | resume => extract_resume_data file_path = Ok data
           | job => extract_job_data file_path = Ok data
           | unknown =>
               data = []
               /\ normalized = [("raw_text"%string, VStr (clean_text x))]
           end)
  /\ (x = [] ->
      parse file_path
      = Ok [ ("type", VStr (cp "unknown"));
             ("data", VDict []);
             ("normalized", VDict [("raw_text", VStr [])]) ]%string).
Proof.
  intros Hread. split; [|split].
  - unfold detect_file_type. rewrite Hread. reflexivity.
  - now apply ManagerFacts.parse_result.
  - intros ->. unfold parse. rewrite Hread. reflexivity.
Qed.

Lemma parse_spec_witness :
  @detect_file_type ascii_only (example_host job_example) (cp "posting.txt") None
  = Ok (@classify ascii_only job_example)
  /\ (exists data normalized,
        @parse ascii_only (example_host job_example) (cp "posting.txt")
        = Ok [ ("type", VStr (doc_type_name (@classify ascii_only job_example)));
               ("data", VDict data);
               ("normalized", VDict normalized) ]%string
        /\ match @classify ascii_only job_example with
           | resume =>
               @extract_resume_data ascii_only (example_host job_example)
                 (cp "posting.txt") = Ok data
           | job =>
               @extract_job_data ascii_only (example_host job_example)
                 (cp "posting.txt") = Ok data
           | unknown =>
               data = []
               /\ normalized = [("raw_text"%string, VStr (clean_text job_example))]
           end)
  /\ (job_example = [] ->
      @parse ascii_only (example_host job_example) (cp "posting.txt")
      = Ok [ ("type", VStr (cp "unknown"));
             ("data", VDict []);
             ("normalized", VDict [("raw_text", VStr [])]) ]%string).
Proof.
  apply (@parse_spec ascii_only (example_host job_example) (cp "posting.txt")
           job_example).
  reflexivity.
Defined.

(** C9.  Whatever the text, and whatever the named-entity model does or
    whether it is there at all, the two extractors and the router do
    not raise; the extractors return every documented key, a singular
    field holding a string or [None] and a list field a list (on the
    empty text: [None] and the empty list throughout); the router
    returns a type, the data and the normalized view. *)
Theorem extractors_total {U : UnicodeData} {H : Host} (raw : text) :
  (exists data,
      extract_resume_text raw = Ok data
      /\ has_fields resume_singular resume_lists data
      /\ map fst data
         = [ "name"; "email"; "phone"; "education"; "experience"; "skills";
             "projects"; "certifications"; "linkedin"; "github"; "raw_text" ]%string)
  /\ (exists data,
        extract_job_text raw = Ok data
        /\ has_fields job_singular job_lists data
        /\ map fst data
           = [ "title"; "company"; "skills_required"; "experience_required";
               "education_required"; "responsibilities"; "location";
               "raw_text" ]%string)
  /\ extract_resume_text []
     = Ok [ ("name", VNone); ("email", VNone); ("phone", VNone);
            ("education", VList []); ("experience", VList []);
            ("skills", VList []); ("projects", VList []);
            ("certifications", VList []); ("linkedin", VNone);
            ("github", VNone); ("raw_text", VStr []) ]%string
  /\ extract_job_text []
     = Ok [ ("title", VNone); ("company", VNone); ("skills_required", VList []);
            ("experience_required", VNone); ("education_required", VNone);
            ("responsibilities", VList []); ("location", VNone);
            ("raw_text", VStr []) ]%string
  /\ (forall file_path,
        _read_any file_path = Ok raw ->
        extract_resume_data file_path = extract_resume_text raw
        /\ extract_job_data file_path = extract_job_text raw
        /\ exists out, parse file_path = Ok out
                       /\ map fst out = ["type"; "data"; "normalized"]%string).
Proof.
  split; [|split; [|split; [|split]]].
  - exists (resume_fields (clean_text raw)).
    split; [apply ManagerFacts.extract_resume_text_fields|].
    split; [apply ManagerFacts.resume_fields_complete | reflexivity].
  - exists (job_fields (clean_text raw)).
    split; [apply JobFacts.extract_job_text_fields|].
    split; [apply ManagerFacts.job_fields_complete | reflexivity].
  - vm_compute. reflexivity.
  - vm_compute. reflexivity.
  - intros file_path Hread.
    unfold extract_resume_data, extract_job_data. rewrite Hread.
    split; [reflexivity|]. split; [reflexivity|].
    destruct (ManagerFacts.parse_result file_path Hread)
      as [data [normalized [-> _]]].
    eexists. split; reflexivity.
Qed.

(** * Further properties of the code *)

Module MoreCleanFacts.
Import Str StrFacts CleanFacts.

Lemma filter_nonspace_spaces (x : text) :
  forallb isspace x = true -> filter nonspace x = [].
Proof.
  induction x as [|c x IH]; simpl; auto.
  intros Hx. apply andb_true_iff in Hx. destruct Hx as [Hc Hx].
  unfold nonspace at 1. rewrite Hc. simpl. auto.
Qed.

Lemma filter_nonspace_nil (x : text) :
  filter nonspace x = [] -> forallb isspace x = true.
Proof.
  induction x as [|c x IH]; simpl; auto.
  unfold nonspace at 1. destruct (isspace c); simpl; [auto | discriminate].
Qed.

Lemma replace_one_nonspace (a : N) (new s : text) :
  isspace a = true -> forallb isspace new = true ->
  filter nonspace (replace [a] new s) = filter nonspace s.
Proof.
  intros Ha Hnew. unfold replace.
  induction s as [|c s IH]; simpl; auto.
  destruct (N.eqb_spec a c) as [<-|Hne]; simpl.
  - rewrite filter_app, (filter_nonspace_spaces new Hnew), IH.
    unfold nonspace at 2. now rewrite Ha.
  - now rewrite IH.
Qed.

Lemma replace_go_cons (old new : text) (c : N) (s : text) :
  replace_go old new 0 (c :: s)
  = if startswith old (c :: s)
    then new ++ replace_go old new (pred (length old)) s
    else c :: replace_go old new 0 s.
Proof. reflexivity. Qed.

Lemma filter_nonspace_cons (c : N) (s : text) :
  filter nonspace (c :: s)
  = if nonspace c then c :: filter nonspace s else filter nonspace s.
Proof. reflexivity. Qed.

Lemma replace_crlf_nonspace (s : text) :
  filter nonspace (replace [CR; NL] [NL] s) = filter nonspace s.
Proof.
  unfold replace.
  assert (Hboth : filter nonspace (replace_go [CR; NL] [NL] 0 s) = filter nonspace s
                  /\ forall c, filter nonspace (replace_go [CR; NL] [NL] 0 (c :: s))
                               = filter nonspace (c :: s)).
  { induction s as [|d s [IH1 IH2]].
    - split; [reflexivity|]. intros c. simpl.
      now rewrite andb_false_r.
    - split; [apply IH2|]. intros c. rewrite replace_go_cons.
      destruct (startswith [CR; NL] (c :: d :: s)) eqn:E.
      + apply startswith_spec in E. destruct E as [post E].
        injection E as -> -> ->.
        change (replace_go [CR; NL] [NL] (pred (length [CR; NL])) (NL :: post))
          with (replace_go [CR; NL] [NL] 0 post).
        cbn [app]. rewrite !filter_nonspace_cons.
        change (nonspace NL) with false. change (nonspace CR) with false.
        exact IH1.
      + rewrite (filter_nonspace_cons c (d :: s)), filter_nonspace_cons, IH2.
        reflexivity. }
  apply Hboth.
Qed.

Lemma sub_whitespace_nonspace (s : text) (b : bool) :
  filter nonspace (sub_whitespace_go b s) = filter nonspace s.
Proof.
  revert b. induction s as [|c s IH]; intros b; simpl; auto.
  unfold nonspace at 2. destruct (isspace c) eqn:E; simpl.
  - destruct b; simpl; auto.
  - unfold nonspace at 1. rewrite E. simpl. now rewrite IH.
Qed.

Lemma strip_nonspace (s : text) : filter nonspace (strip s) = filter nonspace s.
Proof.
  destruct (strip_with_segment isspace s) as [x [y [E [Hx Hy]]]].
  fold (strip s) in E. rewrite E at 2.
  rewrite !filter_app, (filter_nonspace_spaces x Hx),
    (filter_nonspace_spaces y Hy), app_nil_r.
  reflexivity.
Qed.

Lemma clean_text_nonspace (x : text) :
  filter nonspace (clean_text x) = filter nonspace x.
Proof.
  unfold clean_text. destruct x as [|c x']; [reflexivity|]. cbn [is_empty].
  rewrite strip_nonspace. unfold WHITESPACE_RE_sub.
  rewrite sub_whitespace_nonspace.
  rewrite replace_one_nonspace by reflexivity.
  rewrite replace_crlf_nonspace.
  now rewrite replace_one_nonspace by reflexivity.
Qed.

End MoreCleanFacts.

(** X1.  Cleaning touches white space only: the characters of the
    cleaned text that are not white space are those of the raw text, in
    the same order. *)
Theorem clean_text_keeps_content (x : text) :
  filter nonspace (clean_text x) = filter nonspace x.
Proof. apply MoreCleanFacts.clean_text_nonspace. Qed.

(** X2.  The cleaned text is empty exactly when the raw text is nothing
    but white space (or empty). *)
Theorem clean_text_empty_iff (x : text) :
  clean_text x = [] <-> forallb isspace x = true.
Proof.
  split.
  - intros E. apply MoreCleanFacts.filter_nonspace_nil.
    rewrite <- MoreCleanFacts.clean_text_nonspace, E. reflexivity.
  - intros Hx.
    pose proof (MoreCleanFacts.clean_text_nonspace x) as E.
    rewrite (MoreCleanFacts.filter_nonspace_spaces x Hx) in E.
    destruct (CleanFacts.clean_text_normal x) as [_ [Hs _]].
    destruct (clean_text x) as [|c t]; auto.
    simpl in Hs, E. unfold nonspace at 1 in E. rewrite Hs in E. discriminate.
Qed.

Module MoreSectionFacts.
Import Str StrFacts SectionFacts.

Section WithUnicode.
Context {U : UnicodeData}.

Lemma header_lookup_in (m : list (text * string)) (h : text) (k : string) :
  header_lookup h m = Ok k -> In k (map snd m).
Proof.
  induction m as [|[h' k'] m IH]; simpl; [discriminate|].
  destruct (Str.eqb h' h).
  - intros E. injection E as ->. now left.
  - intros E. right. auto.
Qed.

Lemma header_kind_known (ln : text) (k : string) :
  header_kind ln = Some k -> In k section_names.
Proof.
  unfold header_kind.
  destruct (first_header header_patterns ln) as [h|]; [|discriminate].
  destruct (header_lookup h header_map) as [k'|] eqn:E; [|discriminate].
  intros Ek. injection Ek as <-. apply header_lookup_in in E.
  vm_compute in E. vm_compute. intuition.
Qed.

Lemma close_section_names (kind : string) (acc : list text) :
  In kind section_names ->
  Forall (fun sec => In (fst sec) section_names) (close_section kind acc).
Proof. intros Hk. destruct acc; simpl; auto. Qed.

Lemma segment_names (lines : list text) :
  forall kind acc,
    In kind section_names ->
    Forall (fun sec => In (fst sec) section_names) (segment_spec kind acc lines).
Proof.
  induction lines as [|ln lines IH]; intros kind acc Hk; cbn [segment_spec].
  - now apply close_section_names.
  - destruct (header_kind ln) as [k|] eqn:E.
    + apply Forall_app. split; [now apply close_section_names|].
      apply IH. eapply header_kind_known; eauto.
    + now apply IH.
Qed.

(** The content lines hold no newline. *)
Lemma strip_no_sep (s : text) (c : N) : ~ In c s -> ~ In c (strip s).
Proof.
  intros Hn Hin. apply Hn.
  destruct (strip_with_segment isspace s) as [x [y [E _]]].
  fold (strip s) in E. rewrite E. apply in_or_app. right.
  apply in_or_app. now left.
Qed.

Lemma content_lines_no_newline (txt : text) :
  Forall (fun l => ~ In NL l) (content_lines txt).
Proof.
  unfold content_lines. apply Forall_forall. intros l Hl.
  apply in_map_iff in Hl. destruct Hl as [l0 [<- Hin]].
  apply filter_In in Hin. destruct Hin as [Hin _].
  apply strip_no_sep.
  pose proof (split_parts_no_sep NL txt) as Hall.
  rewrite Forall_forall in Hall. now apply Hall.
Qed.

(** [split] undoes [join] on lines without the separator. *)
Lemma split_join (sep : N) (ls : list text) :
  Forall (fun l => ~ In sep l) ls -> ls <> [] ->
  split sep (join [sep] ls) = ls.
Proof.
  induction 1 as [|l ls Hl Hall IH]; [intros Hne; now contradiction Hne|].
  intros _. destruct ls as [|l' ls].
  - simpl. now apply split_none.
  - rewrite join_cons by discriminate. cbn [app].
    rewrite split_app. rewrite IH by discriminate.
    rewrite split_none by assumption. reflexivity.
Qed.

Lemma close_section_lines (kind : string) (acc : list text) :
  Forall good_line acc -> Forall (fun l => ~ In NL l) acc ->
  flat_map lines_of (close_section kind acc) = acc.
Proof.
  intros Hg Hn. destruct (close_section_good kind Hg) as [-> _].
  destruct acc as [|l ls]; [reflexivity|].
  cbn [flat_map]. unfold lines_of. cbn [snd].
  rewrite split_join by (assumption || discriminate).
  apply app_nil_r.
Qed.

(** No content line is lost, added or moved by the segmentation. *)
Lemma segment_lines (lines : list text) :
  Forall good_line lines -> Forall (fun l => ~ In NL l) lines ->
  forall kind acc,
    Forall good_line acc -> Forall (fun l => ~ In NL l) acc ->
    flat_map lines_of (segment_spec kind acc lines)
    = acc ++ filter (fun ln => negb (is_header ln)) lines.
Proof.
  induction lines as [|ln lines IH]; intros Hg Hn kind acc Hga Hna;
    cbn [segment_spec filter].
  - rewrite app_nil_r. now apply close_section_lines.
  - inversion Hg; subst. inversion Hn; subst.
    destruct (header_kind ln) as [k|] eqn:E.
    + assert (Hh : is_header ln = true) by (apply is_header_kind; eauto).
      rewrite Hh. cbn [negb]. rewrite flat_map_app, close_section_lines by assumption.
      rewrite IH by (assumption || constructor). reflexivity.
    + assert (Hh : is_header ln = false) by now apply is_header_false.
      rewrite Hh. cbn [negb].
      rewrite IH by (try assumption; apply Forall_app; auto).
      now rewrite <- app_assoc.
Qed.

Lemma segment_body_lines (txt : text) :
  flat_map lines_of (segment_spec "body" [] (content_lines txt)) = body_lines txt.
Proof.
  apply (segment_lines (content_lines_good txt) (content_lines_no_newline txt));
    constructor.
Qed.

Lemma lines_of_nonempty (sec : string * text) : lines_of sec <> [].
Proof. unfold lines_of, split. destruct (split_go NL (snd sec)). discriminate. Qed.

Lemma segment_empty_iff (txt : text) :
  segment_spec "body" [] (content_lines txt) = [] <-> body_lines txt = [].
Proof.
  rewrite <- segment_body_lines. split; [intros ->; reflexivity|].
  destruct (segment_spec "body" [] (content_lines txt)) as [|sec secs]; auto.
  cbn [flat_map]. intros E. apply app_eq_nil in E.
  destruct E as [E _]. now apply lines_of_nonempty in E.
Qed.

End WithUnicode.
End MoreSectionFacts.

(** X3.  [split_sections] never raises and never returns the empty
    list, and every section it returns is named "body" or by one of the
    seven kinds of [SECTION_HEADERS]. *)
Theorem split_sections_names {U : UnicodeData} (txt : text) :
  exists sec secs,
    split_sections txt = Ok (sec :: secs)
    /\ Forall (fun s => In (fst s) section_names) (sec :: secs).
Proof.
  rewrite SectionFacts.split_sections_refines.
  pose proof (@MoreSectionFacts.segment_names U (content_lines txt) "body" [])
    as Hnames.
  destruct (segment_spec "body" [] (content_lines txt)) as [|sec secs].
  - do 2 eexists. split; [reflexivity|]. repeat constructor.
  - exists sec, secs. split; [reflexivity|]. apply Hnames. now left.
Qed.

(** X4.  [split_sections] keeps the content lines: when some non-blank
    line is not a header, the lines of the returned sections, in order,
    are exactly the trimmed non-blank lines that are not headers;
    otherwise (no line, or header lines only) the result is the single
    section "body" holding the whole text, or the empty text when every
    line is blank. *)
Theorem split_sections_keeps_lines {U : UnicodeData} (txt : text) :
  exists secs,
    split_sections txt = Ok secs
    /\ (body_lines txt <> [] -> flat_map lines_of secs = body_lines txt)
    /\ (body_lines txt = [] ->
        secs = [("body"%string,
                 match content_lines txt with [] => [] | _ => txt end)]).
Proof.
  rewrite SectionFacts.split_sections_refines.
  pose proof (MoreSectionFacts.segment_body_lines txt) as Hlines.
  pose proof (MoreSectionFacts.segment_empty_iff txt) as Hempty.
  destruct (segment_spec "body" [] (content_lines txt)) as [|sec secs].
  - eexists. split; [reflexivity|]. split; [|reflexivity].
    intros Hne. exfalso. apply Hne. now apply Hempty.
  - exists (sec :: secs). split; [reflexivity|]. split; [auto|].
    intros E. apply Hempty in E. discriminate.
Qed.

Module MoreSkillFacts.
Import Str StrFacts SkillFacts.

(** Two strictly increasing lists with the same elements are equal. *)
Lemma sorted_ext (l1 : list text) :
  forall l2,
    StronglySorted Str.lt l1 -> StronglySorted Str.lt l2 ->
    (forall x, In x l1 <-> In x l2) -> l1 = l2.
Proof.
  induction l1 as [|a l1 IH]; intros l2 H1 H2 Hin.
  - destruct l2 as [|b l2]; auto. exfalso. apply (Hin b). now left.
  - destruct l2 as [|b l2]; [exfalso; apply (Hin a); now left|].
    apply StronglySorted_inv in H1. destruct H1 as [H1 Ha].
    apply StronglySorted_inv in H2. destruct H2 as [H2 Hb].
    rewrite Forall_forall in Ha, Hb.
    assert (Hab : a = b).
    { destruct (proj1 (Hin a) (or_introl eq_refl)) as [E|Ha2]; auto.
      destruct (proj2 (Hin b) (or_introl eq_refl)) as [E|Hb1]; auto.
      exfalso. apply (lt_irrefl (a := a)).
      eapply lt_trans; [apply Ha, Hb1 | apply Hb, Ha2]. }
    subst b. f_equal. apply IH; auto.
    intros x. split; intros Hx.
    + destruct (proj1 (Hin x) (or_intror Hx)) as [E|Hx2]; auto.
      subst x. exfalso. exact (lt_irrefl (Ha a Hx)).
    + destruct (proj2 (Hin x) (or_intror Hx)) as [E|Hx1]; auto.
      subst x. exfalso. exact (lt_irrefl (Hb a Hx)).
Qed.

Lemma sorted_set_ext (l1 l2 : list text) :
  (forall x, In x l1 <-> In x l2) -> sorted_set l1 = sorted_set l2.
Proof.
  intros Hin. apply sorted_ext; try apply sorted_set_sorted.
  intros x. now rewrite !sorted_set_in.
Qed.

Section WithUnicode.
Context {U : UnicodeData}.

(** [find_skills] depends on the dictionary as a set. *)
Lemma find_skills_dictionary (txt : text) (e1 e2 : option (list text)) :
  (forall x, In x (dictionary e1) <-> In x (dictionary e2)) ->
  find_skills txt e1 = find_skills txt e2.
Proof.
  intros Hin. unfold find_skills. destruct (is_empty txt); auto.
  fold (dictionary e1). fold (dictionary e2).
  now rewrite (sorted_set_ext _ _ Hin).
Qed.

End WithUnicode.
End MoreSkillFacts.

(** X5.  The extra skills count as a set: two lists of extras with the
    same elements give the same result, extras that are default skills
    (up to case) or an empty list of extras give the result of the
    defaults, and adding extras never removes a skill that is found. *)
Theorem find_skills_extras {U : UnicodeData} (txt : text) (e1 e2 : list text) :
  ((forall x, In x e1 <-> In x e2) ->
   find_skills txt (Some e1) = find_skills txt (Some e2))
  /\ ((forall x, In x e1 -> In (Str.lower x) (map Str.lower DEFAULT_SKILLS)) ->
      find_skills txt (Some e1) = find_skills txt None)
  /\ find_skills txt (Some []) = find_skills txt None
  /\ incl (find_skills txt None) (find_skills txt (Some e1)).
Proof.
  split; [|split; [|split]].
  - intros Hin. apply MoreSkillFacts.find_skills_dictionary.
    intros x. unfold dictionary. split; intros Hx; apply in_app_or in Hx;
      apply in_or_app; (destruct Hx as [Hd|He]; [now left | right]);
      apply in_map_iff in He; destruct He as [y [E Hy]];
      apply in_map_iff; exists y; split; auto; now apply Hin.
  - intros Hdef. apply MoreSkillFacts.find_skills_dictionary.
    intros x. unfold dictionary. split; intros Hx; apply in_app_or in Hx;
      apply in_or_app; left.
    + destruct Hx as [Hd|He]; auto.
      apply in_map_iff in He. destruct He as [y [<- Hy]]. auto.
    + destruct Hx as [Hd|[]]. exact Hd.
  - reflexivity.
  - intros s Hs. apply SkillFacts.find_skills_in in Hs.
    apply SkillFacts.find_skills_in.
    destruct Hs as [Hne [Hd Hocc]]. repeat split; auto.
    unfold dictionary in *. rewrite in_app_iff in *. cbn [In] in Hd.
    destruct Hd as [Hd|[]]. now left.
Qed.

(** X6.  The classifier and the two extractors look at the cleaned text
    only: cleaning the text beforehand changes nothing, and parsing the
    [raw_text] of a result again gives the same result. *)
Theorem parsers_see_cleaned_text {U : UnicodeData} {H : Host} (raw : text) :
  classify (clean_text raw) = classify raw
  /\ extract_job_text (clean_text raw) = extract_job_text raw
  /\ extract_resume_text (clean_text raw) = extract_resume_text raw
  /\ (exists data,
         extract_job_text raw = Ok data
         /\ lookup "raw_text" data = Some (VStr (clean_text raw)))
  /\ (exists data,
         extract_resume_text raw = Ok data
         /\ lookup "raw_text" data = Some (VStr (clean_text raw))).
Proof.
  assert (Hc : clean_text (clean_text raw) = clean_text raw)
    by apply CleanFacts.clean_text_fixed, CleanFacts.clean_text_normal.
  split; [unfold classify; now rewrite Hc|].
  split; [now rewrite !JobFacts.extract_job_text_fields, Hc|].
  split; [now rewrite !ManagerFacts.extract_resume_text_fields, Hc|].
  split.
  - exists (job_fields (clean_text raw)).
    split; [apply JobFacts.extract_job_text_fields | reflexivity].
  - exists (resume_fields (clean_text raw)).
    split; [apply ManagerFacts.extract_resume_text_fields | reflexivity].
Qed.

Module MoreReFacts.
Import Re ReFacts.

Lemma cls_inv (p : N -> bool) (st st' : mstate) :
  matches (Cls p) st st' ->
  exists c, rest st = c :: rest st' /\ p c = true /\ group1 st' = group1 st.
Proof. inversion 1; subst; simpl; eauto. Qed.

(** A pattern reads a prefix of what is left of the subject. *)
Lemma matches_consumes (r : regex) (st st' : mstate) :
  matches r st st' -> exists x, rest st = x ++ rest st'.
Proof.
  induction 1; simpl; try (exists []; reflexivity); eauto.
  - exists [c]. reflexivity.
  - destruct IHmatches1 as [x1 E1]. destruct IHmatches2 as [x2 E2].
    exists (x1 ++ x2). rewrite E1, E2. now rewrite app_assoc.
Qed.

Lemma firstn_consumed (A : Type) (x r : list A) :
  firstn (length (x ++ r) - length r) (x ++ r) = x.
Proof.
  rewrite length_app, Nat.add_sub, firstn_app, Nat.sub_diag, firstn_all.
  simpl. apply app_nil_r.
Qed.

Lemma match_at_consumes (r : regex) (pv : option N) (s : text) (m : match_obj) :
  match_at r pv s = Some m ->
  exists st', matches r (MState pv s None) st'
              /\ s = group0 m ++ rest st' /\ group_1 m = group1 st'.
Proof.
  intros Hm. apply match_at_sound in Hm. destruct Hm as [st' [Hm ->]].
  exists st'. split; auto. simpl.
  destruct (matches_consumes Hm) as [x E]. simpl in E.
  rewrite E at 2 3. rewrite firstn_consumed. auto.
Qed.

(** A match found by [search] is a piece of the subject, and the pattern
    matches it where it stands. *)
Lemma search_found (r : regex) (s : text) (m : match_obj) :
  search r s = Some m ->
  exists pre st',
    s = pre ++ group0 m ++ rest st'
    /\ matches r (MState (prev_after None pre) (group0 m ++ rest st') None) st'
    /\ group_1 m = group1 st'.
Proof.
  intros Hs. apply search_from_sound in Hs. destruct Hs as [pre [s' [-> Hm]]].
  apply match_at_consumes in Hm. destruct Hm as [st' [Hm [E Hg]]].
  exists pre, st'. rewrite <- E. auto.
Qed.

(** Group 1, when set, is a piece of the subject. *)
Lemma matches_group_piece (r : regex) (st st' : mstate) :
  matches r st st' ->
  forall whole pre0,
    whole = pre0 ++ rest st ->
    (forall t, group1 st = Some t -> substring t whole) ->
    forall t, group1 st' = Some t -> substring t whole.
Proof.
  induction 1; intros whole pre0 Hw Hgrp t Ht; simpl in *; eauto.
  - destruct (matches_consumes H) as [x E].
    eapply (IHmatches2 whole (pre0 ++ x)); eauto.
    rewrite Hw, E. now rewrite app_assoc.
  - injection Ht as <-. destruct (matches_consumes H) as [x E].
    rewrite E, firstn_consumed. exists pre0, (rest st'). now rewrite Hw, E.
Qed.

Lemma search_group_piece (r : regex) (s : text) (m : match_obj) (g : text) :
  search r s = Some m -> group_1 m = Some g -> substring g s.
Proof.
  intros Hs Hg. apply search_found in Hs.
  destruct Hs as [pre [st' [E [Hm Hg1]]]].
  eapply (@matches_group_piece _ _ _ Hm s pre); simpl; auto.
  - discriminate.
  - congruence.
Qed.

Lemma substring_strip (g s : text) : substring g s -> substring (Str.strip g) s.
Proof.
  intros [pre [post ->]].
  destruct (StrFacts.strip_with_segment isspace g) as [x [y [E _]]].
  fold (Str.strip g) in E. exists (pre ++ x), (y ++ post).
  rewrite E at 1. now rewrite <- !app_assoc.
Qed.

Section WithUnicode.
Context {U : UnicodeData}.

Lemma first_found_piece (r : regex) (txt e : text) :
  first_found r txt = Some e -> substring e txt.
Proof.
  unfold first_found. destruct (search r txt) as [m|] eqn:E; [|discriminate].
  intros Em. injection Em as <-. apply search_found in E.
  destruct E as [pre [st' [E _]]]. exists pre, (rest st'). exact E.
Qed.

Lemma first_group_piece (r : regex) (txt g : text) :
  first_group r txt = Some g -> substring g txt.
Proof.
  unfold first_group. destruct (search r txt) as [m|] eqn:E; [|discriminate].
  destruct (group_1 m) as [g1|] eqn:Eg; [|discriminate].
  intros Em. injection Em as <-. apply substring_strip.
  eapply search_group_piece; eauto.
Qed.

(** What a match of [EMAIL_RE] reads *)
Lemma email_re_inv (st st' : mstate) :
  matches EMAIL_RE st st' ->
  exists e, rest st = e ++ rest st' /\ email_shape e.
Proof.
  unfold EMAIL_RE. simpl seq. intros Hm.
  apply seq_inv in Hm. destruct Hm as [st1 [H1 Hm]].
  apply seq_inv in Hm. destruct Hm as [st2 [H2 Hm]].
  apply seq_inv in Hm. destruct Hm as [st3 [H3 Hm]].
  apply seq_inv in Hm. destruct Hm as [st4 [H4 H5]].
  apply rep_inv in H1. destruct H1 as [l [E1 [Hl [Hl1 _]]]].
  apply cls_inv in H2. destruct H2 as [c2 [E2 [Hc2 _]]].
  apply rep_inv in H3. destruct H3 as [d [E3 [Hd [Hd1 _]]]].
  apply cls_inv in H4. destruct H4 as [c4 [E4 [Hc4 _]]].
  apply rep_inv in H5. destruct H5 as [t [E5 [Ht [Ht2 _]]]].
  unfold chr in Hc2, Hc4. apply N.eqb_eq in Hc2, Hc4. subst c2 c4.
  exists (l ++ [64] ++ d ++ [46] ++ t). split.
  - rewrite E1, E2, E3, E4, E5. now rewrite <- !app_assoc.
  - exists l, d, t. repeat split; auto.
    + destruct l; [simpl in Hl1; lia | discriminate].
    + destruct d; [simpl in Hd1; lia | discriminate].
Qed.

Lemma email_re_intro (e post : text) (pv : option N) :
  email_shape e ->
  exists st', matches EMAIL_RE (MState pv (e ++ post) None) st'.
Proof.
  intros [l [d [t [-> [Hl1 [Hl [Hd1 [Hd [Ht2 Ht]]]]]]]]].
  unfold EMAIL_RE. simpl seq. eexists.
  rewrite <- !app_assoc. cbn [app].
  eapply M_Seq.
  { apply M_Rep; [exact Hl | destruct l; [congruence | simpl; lia] | exact I]. }
  eapply M_Seq; [apply M_Cls; reflexivity|].
  eapply M_Seq.
  { apply M_Rep; [exact Hd | destruct d; [congruence | simpl; lia] | exact I]. }
  eapply M_Seq; [apply M_Cls; reflexivity|].
  apply M_Rep; [exact Ht | exact Ht2 | exact I].
Qed.

End WithUnicode.
End MoreReFacts.

(** X7.  [extract_email] finds an address exactly when the text holds
    one: what it returns is a piece of the text of the shape
    local@domain.tld (local part and domain not empty, at least two
    letters at the end), it returns something whenever the text holds a
    piece of that shape, and nothing when the text has no '@'. *)
Theorem extract_email_spec (txt : text) :
  (forall e, extract_email txt = Some e -> substring e txt /\ email_shape e)
  /\ ((exists e, substring e txt /\ email_shape e) -> extract_email txt <> None)
  /\ (~ In 64 txt -> extract_email txt = None).
Proof.
  assert (Hsound : forall e, extract_email txt = Some e ->
                             substring e txt /\ email_shape e).
  { intros e He. split; [eapply MoreReFacts.first_found_piece; exact He|].
    unfold extract_email, first_found in He.
    destruct (Re.search EMAIL_RE txt) as [m|] eqn:E; [|discriminate].
    injection He as <-. apply MoreReFacts.search_found in E.
    destruct E as [pre [st' [_ [Hm _]]]].
    apply MoreReFacts.email_re_inv in Hm. destruct Hm as [e [E He]].
    simpl in E. apply app_inv_tail in E. now subst. }
  split; [exact Hsound|]. split.
  - intros [e [[pre [post ->]] He]].
    unfold extract_email, first_found.
    destruct (MoreReFacts.email_re_intro post (prev_after None pre) He) as [st' Hm].
    assert (Hs : Re.is_some (Re.search EMAIL_RE (pre ++ e ++ post)) = true).
    { apply ReFacts.search_spec. eauto. }
    destruct (Re.search EMAIL_RE (pre ++ e ++ post)); [discriminate | discriminate].
  - intros Hno. destruct (extract_email txt) as [e|] eqn:E; auto.
    destruct (Hsound e eq_refl) as [[pre [post ->]] [l [d [t [-> _]]]]].
    exfalso. apply Hno. apply in_or_app. right. apply in_or_app. left.
    apply in_or_app. right. now left.
Qed.

Module PatternFacts.
Import Re ReFacts MoreReFacts.

Section WithUnicode.
Context {U : UnicodeData}.

Lemma filter_all (A : Type) (f : A -> bool) (x : list A) :
  forallb f x = true -> filter f x = x.
Proof.
  induction x as [|a x IH]; simpl; auto.
  intros Hx. apply andb_true_iff in Hx. destruct Hx as [-> Hx].
  now rewrite IH.
Qed.

Lemma digit_count_app (a b : text) :
  digit_count (a ++ b) = (digit_count a + digit_count b)%nat.
Proof. unfold digit_count. now rewrite filter_app, length_app. Qed.

Lemma digit_count_le (a : text) : (digit_count a <= length a)%nat.
Proof. unfold digit_count. apply filter_length_le. Qed.

(** [\d{n}] reads exactly [n] digits. *)
Lemma times_inv (n : nat) (st st' : mstate) :
  matches (Times n digit) st st' ->
  exists x, rest st = x ++ rest st' /\ length x = n /\ digit_count x = n.
Proof.
  unfold Times. intros Hm. apply rep_inv in Hm.
  destruct Hm as [x [E [Hx [Hlo [Hhi _]]]]]. simpl in Hhi.
  exists x. split; auto. assert (Hlen : length x = n) by lia.
  split; auto. unfold digit_count. now rewrite filter_all.
Qed.

(** An optional character reads at most one character. *)
Lemma maybe_len (p : N -> bool) (st st' : mstate) :
  matches (Maybe p) st st' ->
  exists x, rest st = x ++ rest st' /\ (length x <= 1)%nat.
Proof.
  unfold Maybe. intros Hm. apply rep_inv in Hm.
  destruct Hm as [x [E [_ [_ [Hhi _]]]]]. eauto.
Qed.

(** What a match of [PHONE_RE] reads: ten digits at least, nineteen
    characters at most. *)
Lemma phone_re_inv (st st' : mstate) :
  matches PHONE_RE st st' ->
  exists e, rest st = e ++ rest st'
            /\ (10 <= digit_count e)%nat /\ (length e <= 19)%nat.
Proof.
  unfold PHONE_RE. simpl seq. intros Hm.
  apply seq_inv in Hm. destruct Hm as [st1 [H1 Hm]].
  apply seq_inv in Hm. destruct Hm as [st2 [H2 Hm]].
  apply seq_inv in Hm. destruct Hm as [st3 [H3 Hm]].
  apply seq_inv in Hm. destruct Hm as [st4 [H4 Hm]].
  apply seq_inv in Hm. destruct Hm as [st5 [H5 H6]].
  (* the country code *)
  assert (Ho : exists x, rest st = x ++ rest st1 /\ (length x <= 5)%nat).
  { apply alt_inv in H1. destruct H1 as [H1|H1].
    - apply seq_inv in H1. destruct H1 as [sa [Ha H1]].
      apply seq_inv in H1. destruct H1 as [sb [Hb Hc]].
      apply maybe_len in Ha. destruct Ha as [xa [Ea La]].
      apply rep_inv in Hb. destruct Hb as [xb [Eb [_ [_ [Lb _]]]]]. simpl in Lb.
      apply maybe_len in Hc. destruct Hc as [xc [Ec Lc]].
      exists (xa ++ xb ++ xc). rewrite Ea, Eb, Ec, <- !app_assoc.
      split; auto. rewrite !length_app. lia.
    - inversion H1; subst. exists []. split; auto. simpl. lia. }
  destruct Ho as [xo [Eo Lo]].
  (* the area code *)
  assert (Ha : exists x, rest st1 = x ++ rest st2
                         /\ (3 <= digit_count x)%nat /\ (length x <= 5)%nat).
  { apply alt_inv in H2. destruct H2 as [H2|H2].
    - apply seq_inv in H2. destruct H2 as [sa [Ha H2]].
      apply seq_inv in H2. destruct H2 as [sb [Hb Hc]].
      apply maybe_len in Ha. destruct Ha as [xa [Ea La]].
      apply times_inv in Hb. destruct Hb as [xb [Eb [Lb Db]]].
      apply maybe_len in Hc. destruct Hc as [xc [Ec Lc]].
      exists (xa ++ xb ++ xc). rewrite Ea, Eb, Ec, <- !app_assoc.
      split; auto. rewrite !digit_count_app, !length_app. lia.
    - apply times_inv in H2. destruct H2 as [x [E [L D]]].
      exists x. split; auto. lia. }
  destruct Ha as [xa [Ea [Da La]]].
  apply maybe_len in H3. destruct H3 as [x3 [E3 L3]].
  apply times_inv in H4. destruct H4 as [x4 [E4 [L4 D4]]].
  apply maybe_len in H5. destruct H5 as [x5 [E5 L5]].
  apply times_inv in H6. destruct H6 as [x6 [E6 [L6 D6]]].
  exists (xo ++ xa ++ x3 ++ x4 ++ x5 ++ x6).
  rewrite Eo, Ea, E3, E4, E5, E6, <- !app_assoc.
  split; auto. rewrite !digit_count_app, !length_app. lia.
Qed.

(** What a match of a profile pattern reads *)
Lemma profile_re_inv (host : string) (st st' : mstate) :
  matches (profile_re host) st st' ->
  exists e, rest st = e ++ rest st' /\ profile_shape host e.
Proof.
  unfold profile_re. simpl seq. intros Hm.
  apply seq_inv in Hm. destruct Hm as [st1 [H1 Hm]].
  apply seq_inv in Hm. destruct Hm as [st2 [H2 Hm]].
  apply seq_inv in Hm. destruct Hm as [st3 [H3 Hm]].
  apply seq_inv in Hm. destruct Hm as [st4 [H4 Hm]].
  apply seq_inv in Hm. destruct Hm as [st5 [H5 Hm]].
  apply seq_inv in Hm. destruct Hm as [st6 [H6 H7]].
  apply lit_with_inv in H1. destruct H1 as [a [E1 [Ha _]]].
  destruct (matches_consumes H2) as [x2 E2].
  destruct (matches_consumes H3) as [x3 E3].
  destruct (matches_consumes H4) as [x4 E4].
  apply lit_with_inv in H5. destruct H5 as [h [E5 [Hh _]]].
  apply lit_with_inv in H6. destruct H6 as [sl [E6 [Hsl _]]].
  apply rep_inv in H7. destruct H7 as [p [E7 [Hp [Hp1 _]]]].
  exists ((a ++ x2 ++ x3 ++ x4) ++ (h ++ sl) ++ p). split.
  - rewrite E1, E2, E3, E4, E5, E6, E7. now rewrite <- !app_assoc.
  - exists (a ++ x2 ++ x3 ++ x4), (h ++ sl), p. repeat split; auto.
    + assert (Hlen : length a = 4%nat)
        by (apply Forall2_length in Ha; simpl in Ha; lia).
      rewrite firstn_app, <- Hlen, Nat.sub_diag, firstn_all. simpl.
      rewrite app_nil_r. exact Ha.
    + unfold ci_equal. apply Forall2_app; assumption.
    + destruct p; [simpl in Hp1; lia | discriminate].
Qed.

(** Every item of [findall] is a match of the pattern somewhere in the
    subject. *)
Lemma findall_go_sound (r : regex) (s : text) :
  forall skip pv u,
    In u (findall_go r skip pv s) ->
    exists pre s' m,
      s = pre ++ s' /\ match_at r (prev_after pv pre) s' = Some m /\ u = group0 m.
Proof.
  induction s as [|c s IH]; intros skip pv u Hin.
  - destruct skip; simpl in Hin; [|contradiction].
    destruct (match_at r pv []) as [m|] eqn:E; [|contradiction].
    destruct Hin as [<-|[]]. exists [], [], m. auto.
  - assert (Hnext : forall k, In u (findall_go r k (Some c) s) ->
              exists pre s' m, c :: s = pre ++ s'
                /\ match_at r (prev_after pv pre) s' = Some m /\ u = group0 m).
    { intros k Hk. apply IH in Hk. destruct Hk as [pre [s' [m [-> [Hm ->]]]]].
      exists (c :: pre), s', m. auto. }
    destruct skip; cbn [findall_go] in Hin; [|eauto].
    destruct (match_at r pv (c :: s)) as [m|] eqn:E; [|eauto].
    destruct Hin as [<-|Hin]; [|eauto].
    exists [], (c :: s), m. auto.
Qed.

Lemma fromkeys_go_spec (l : list text) :
  forall seen,
    NoDup (fromkeys_go seen l)
    /\ forall x, In x (fromkeys_go seen l) <-> In x l /\ ~ In x seen.
Proof.
  induction l as [|a l IH]; intros seen; simpl.
  - split; [constructor | tauto].
  - assert (Hseen : existsb (Str.eqb a) seen = true <-> In a seen).
    { rewrite existsb_exists. split.
      - intros [y [Hy E]]. apply StrFacts.eqb_eq in E. now subst.
      - intros Hin. exists a. split; auto. apply StrFacts.eqb_refl. }
    destruct (existsb (Str.eqb a) seen) eqn:E.
    + destruct (IH seen) as [Hnd Hin]. split; auto.
      intros x. rewrite Hin. split; [tauto|].
      intros [[<-|Hx] Hn]; [exfalso; apply Hn; now apply Hseen | auto].
    + destruct (IH (a :: seen)) as [Hnd Hin]. split.
      * constructor; auto. rewrite Hin. simpl. tauto.
      * intros x. simpl. rewrite Hin. simpl.
        assert (Ha : ~ In a seen) by (intros Ha; apply Hseen in Ha; discriminate).
        split.
        -- intros [<-|[Hx Hn]]; auto.
        -- intros [[<-|Hx] Hn]; auto.
           destruct (list_eq_dec N.eq_dec a x) as [<-|Hne]; auto.
           right. split; auto. intros [?|?]; auto.
Qed.

(** What a match of [URL_RE] reads *)
Lemma url_re_inv (st st' : mstate) :
  matches URL_RE st st' ->
  exists e tl,
    rest st = e ++ rest st'
    /\ (e = cp "http://" ++ tl \/ e = cp "https://" ++ tl) /\ tl <> [].
Proof.
  unfold URL_RE. simpl seq. intros Hm.
  apply seq_inv in Hm. destruct Hm as [st1 [H1 Hm]].
  apply seq_inv in Hm. destruct Hm as [st2 [H2 Hm]].
  apply seq_inv in Hm. destruct Hm as [st3 [H3 Hm]].
  apply seq_inv in Hm. destruct Hm as [st4 [H4 H5]].
  apply lit_with_inv in H1. destruct H1 as [a [E1 [Ha _]]].
  apply Forall2_chr in Ha. subst a.
  apply rep_inv in H2. destruct H2 as [x [E2 [Hx [_ [Hx1 _]]]]].
  apply maybe_inv in Hx; [|exact Hx1].
  apply lit_with_inv in H3. destruct H3 as [b [E3 [Hb _]]].
  apply Forall2_chr in Hb. subst b.
  apply rep_inv in H4. destruct H4 as [hst [E4 [_ [Hh1 _]]]].
  destruct (matches_consumes H5) as [x5 E5].
  exists (cp "http" ++ x ++ cp "://" ++ hst ++ x5), (hst ++ x5).
  split; [|split].
  - rewrite E1, E2, E3, E4, E5. now rewrite <- !app_assoc.
  - destruct Hx as [-> | ->]; [left | right]; reflexivity.
  - destruct hst; [simpl in Hh1; lia | discriminate].
Qed.

End WithUnicode.
End PatternFacts.

(** X8.  A phone number returned by [extract_phone] is a piece of the
    text with at least ten digits and at most nineteen characters; a
    text of fewer than ten characters has none. *)
Theorem extract_phone_spec {U : UnicodeData} (txt : text) :
  (forall e, extract_phone txt = Some e ->
             substring e txt /\ (10 <= digit_count e)%nat /\ (length e <= 19)%nat)
  /\ ((length txt < 10)%nat -> extract_phone txt = None).
Proof.
  assert (Hsound : forall e, extract_phone txt = Some e ->
            substring e txt /\ (10 <= digit_count e)%nat /\ (length e <= 19)%nat).
  { intros e He. split; [eapply MoreReFacts.first_found_piece; exact He|].
    unfold extract_phone, first_found in He.
    destruct (Re.search PHONE_RE txt) as [m|] eqn:E; [|discriminate].
    injection He as <-. apply MoreReFacts.search_found in E.
    destruct E as [pre [st' [_ [Hm _]]]].
    apply PatternFacts.phone_re_inv in Hm. destruct Hm as [e [E He]].
    simpl in E. apply app_inv_tail in E. now subst. }
  split; [exact Hsound|].
  intros Hlen. destruct (extract_phone txt) as [e|] eqn:E; auto.
  destruct (Hsound e eq_refl) as [[pre [post ->]] [Hd _]].
  pose proof (PatternFacts.digit_count_le e) as Hle.
  rewrite !length_app in Hlen. lia.
Qed.

(** X9.  A link returned by [extract_linkedin] or [extract_github] is a
    piece of the text that starts with "http" and holds "linkedin.com/"
    (or "github.com/"), both up to case, followed by a non-empty path of
    word characters, '-' and '/'. *)
Theorem extract_profile_spec {U : UnicodeData} (txt e : text) :
  (extract_linkedin txt = Some e ->
   substring e txt /\ profile_shape "linkedin.com" e)
  /\ (extract_github txt = Some e ->
      substring e txt /\ profile_shape "github.com" e).
Proof.
  assert (Hany : forall host, first_found (profile_re host) txt = Some e ->
                              substring e txt /\ profile_shape host e).
  { intros host He. split; [eapply MoreReFacts.first_found_piece; exact He|].
    unfold first_found in He.
    destruct (Re.search (profile_re host) txt) as [m|] eqn:E; [|discriminate].
    injection He as <-. apply MoreReFacts.search_found in E.
    destruct E as [pre [st' [_ [Hm _]]]].
    apply PatternFacts.profile_re_inv in Hm. destruct Hm as [e [E He]].
    simpl in E. apply app_inv_tail in E. now subst. }
  split; apply Hany.
Qed.

(** X10.  [extract_urls] returns no link twice, returns exactly the
    links [findall] finds, and each is a piece of the text that starts
    with "http://" or "https://" and goes on with at least one more
    character. *)
Theorem extract_urls_spec {U : UnicodeData} (txt : text) :
  NoDup (extract_urls txt)
  /\ (forall u, In u (extract_urls txt) <-> In u (findall URL_RE txt))
  /\ (forall u, In u (extract_urls txt) ->
        substring u txt
        /\ exists tl, tl <> []
                      /\ (u = cp "http://" ++ tl \/ u = cp "https://" ++ tl)).
Proof.
  unfold extract_urls, fromkeys.
  destruct (PatternFacts.fromkeys_go_spec (findall URL_RE txt) []) as [Hnd Hin].
  split; [exact Hnd|].
  assert (Hsame : forall u, In u (fromkeys_go [] (findall URL_RE txt))
                            <-> In u (findall URL_RE txt)).
  { intros u. rewrite Hin. simpl. tauto. }
  split; [exact Hsame|].
  intros u Hu. apply Hsame in Hu. unfold findall in Hu.
  apply PatternFacts.findall_go_sound in Hu.
  destruct Hu as [pre [s' [m [-> [Hm ->]]]]].
  apply MoreReFacts.match_at_consumes in Hm. destruct Hm as [st' [Hm [E _]]].
  split.
  - exists pre, (Re.rest st'). now rewrite <- E.
  - apply PatternFacts.url_re_inv in Hm. destruct Hm as [e [tl [E' [Hshape Hne]]]].
    simpl in E'. rewrite E in E' at 1. apply app_inv_tail in E'.
    exists tl. rewrite E'. auto.
Qed.

Module MoreParserFacts.
Import Str StrFacts.

Section WithUnicode.
Context {U : UnicodeData}.

Lemma filter_none (A : Type) (f : A -> bool) (l : list A) :
  (forall x, In x l -> f x = false) -> filter f l = [].
Proof.
  induction l as [|a l IH]; simpl; auto.
  intros Hall. rewrite (Hall a) by now left. apply IH. auto.
Qed.

Lemma or_else_same (a b : text) : a = b \/ a = [] -> or_else a b = b.
Proof. intros [-> | ->]; [destruct b|]; reflexivity. Qed.

(** [_extract_bullets] never returns more items than the section has
    lines. *)
Lemma extract_bullets_length (s : text) :
  (length (_extract_bullets s) <= length (split NL s))%nat.
Proof.
  unfold _extract_bullets.
  set (lines := map _ (filter nonblank (split NL s))).
  assert (Hl : (length lines <= length (split NL s))%nat).
  { unfold lines. rewrite length_map. apply filter_length_le. }
  destruct (filter _ lines) eqn:E.
  - rewrite length_firstn. lia.
  - rewrite <- E. etransitivity; [apply filter_length_le | exact Hl].
Qed.

Lemma first_chunk_clean (x : text) :
  join [NL] (firstn 10 (split NL (clean_text x))) = clean_text x.
Proof.
  rewrite split_none by apply CleanFacts.clean_text_no_newline. reflexivity.
Qed.

End WithUnicode.
End MoreParserFacts.

(** X11.  In [_guess_name] a named-entity model that raises, or that
    finds no entity labelled PERSON, gives the same result as no model
    at all; when it finds one, the result is the trimmed text of the
    first such entity; the empty text has no name whatever the model. *)
Theorem guess_name_model {U : UnicodeData} (txt : text)
    (nlp : text -> result (list (text * text))) :
  let chunk := Str.join [NL] (firstn 10 (Str.split NL txt)) in
  (forall e, nlp chunk = Raise e ->
             _guess_name txt (Some nlp) = _guess_name txt None)
  /\ (forall ents,
        nlp chunk = Ok ents ->
        (forall ent, In ent ents -> snd ent <> cp "PERSON") ->
        _guess_name txt (Some nlp) = _guess_name txt None)
  /\ (forall before t after,
        txt <> [] ->
        nlp chunk = Ok (before ++ (t, cp "PERSON") :: after) ->
        (forall ent, In ent before -> snd ent <> cp "PERSON") ->
        _guess_name txt (Some nlp) = Some (Str.strip t))
  /\ _guess_name [] (Some nlp) = None.
Proof.
  intros chunk.
  assert (Hnot : forall ents,
            (forall ent, In ent ents -> snd ent <> cp "PERSON") ->
            filter (fun ent : text * text => Str.eqb (snd ent) (cp "PERSON")) ents = []).
  { intros ents Hall. apply MoreParserFacts.filter_none. intros ent Hin.
    destruct (Str.eqb (snd ent) (cp "PERSON")) eqn:E; auto.
    apply StrFacts.eqb_eq in E. now apply Hall in Hin. }
  split; [|split; [|split]].
  - intros e He. unfold _guess_name. destruct (Str.is_empty txt); auto.
    fold chunk. now rewrite He.
  - intros ents He Hall. unfold _guess_name. destruct (Str.is_empty txt); auto.
    fold chunk. rewrite He, (Hnot ents Hall). reflexivity.
  - intros before t after Hne He Hall. unfold _guess_name.
    rewrite (proj2 (StrFacts.is_empty_false txt) Hne).
    fold chunk. rewrite He, filter_app, (Hnot before Hall).
    cbn [filter snd app]. rewrite StrFacts.eqb_refl. reflexivity.
  - reflexivity.
Qed.

(** X12.  On a cleaned text and without a model, [_guess_name] can only
    return the whole text: it finds a name only when the whole document
    is two to five words, each starting with a letter and one of them
    with a capital. *)
Theorem guess_name_cleaned {U : UnicodeData} (raw n : text) :
  _guess_name (clean_text raw) None = Some n ->
  n = clean_text raw
  /\ (2 <= length (Str.words n) <= 5)%nat
  /\ forallb starts_alpha (Str.words n) = true
  /\ (1 <= length (filter starts_upper (Str.words n)))%nat.
Proof.
  unfold _guess_name. destruct (Str.is_empty (clean_text raw)); [discriminate|].
  rewrite MoreParserFacts.first_chunk_clean.
  rewrite StrFacts.split_none by apply CleanFacts.clean_text_no_newline.
  cbn [name_like_line]. rewrite CleanFacts.clean_text_strip.
  set (tokens := Str.words (clean_text raw)).
  destruct ((1 <? length tokens)%nat && (length tokens <=? 5)%nat
            && forallb starts_alpha tokens
            && (1 <=? length (filter starts_upper tokens))%nat) eqn:E;
    [|discriminate].
  intros En. injection En as <-. fold tokens.
  apply andb_true_iff in E. destruct E as [E E4].
  apply andb_true_iff in E. destruct E as [E E3].
  apply andb_true_iff in E. destruct E as [E1 E2].
  apply Nat.ltb_lt in E1. apply Nat.leb_le in E2, E4.
  repeat split; auto; lia.
Qed.

Lemma guess_name_cleaned_witness :
  cp "John Smith" = clean_text (cp "  John   Smith ")
  /\ (2 <= length (Str.words (cp "John Smith")) <= 5)%nat
  /\ forallb (@starts_alpha ascii_only) (Str.words (cp "John Smith")) = true
  /\ (1 <= length (filter (@starts_upper ascii_only)
                     (Str.words (cp "John Smith"))))%nat.
Proof.
  apply (@guess_name_cleaned ascii_only (cp "  John   Smith ") (cp "John Smith")).
  vm_compute. reflexivity.
Defined.

(** X13.  Because the text is cleaned before it is split, the resume
    extractor never sees a named section: whatever the text, its
    education, experience, projects and certifications are empty and its
    skills are those found in the whole cleaned text. *)
Theorem resume_sections_empty {U : UnicodeData} {H : Host} (raw : text) :
  exists data,
    extract_resume_text raw = Ok data
    /\ lookup "education" data = Some (VList [])
    /\ lookup "experience" data = Some (VList [])
    /\ lookup "projects" data = Some (VList [])
    /\ lookup "certifications" data = Some (VList [])
    /\ lookup "skills" data = Some (VList (find_skills (clean_text raw) None)).
Proof.
  exists (resume_fields (clean_text raw)).
  split; [apply ManagerFacts.extract_resume_text_fields|].
  repeat split; reflexivity.
Qed.

(** X14.  Whatever the text, every singular field of the job extractor
    that is present is a piece of the cleaned text, and the
    responsibilities hold at most one item. *)
Theorem job_fields_from_text {U : UnicodeData} (raw : text) :
  exists data,
    extract_job_text raw = Ok data
    /\ (forall key v,
          In key job_singular -> lookup key data = Some (VStr v) ->
          substring v (clean_text raw))
    /\ exists items,
         lookup "responsibilities" data = Some (VList items)
         /\ (length items <= 1)%nat.
Proof.
  exists (job_fields (clean_text raw)).
  split; [apply JobFacts.extract_job_text_fields|].
  pose proof (CleanFacts.clean_text_no_newline raw) as Hnl.
  assert (Hreq : or_else (requirements_of (clean_text raw)) (clean_text raw)
                 = clean_text raw).
  { apply MoreParserFacts.or_else_same. apply JobFacts.keyword_lines_one, Hnl. }
  assert (Hpiece : forall r v,
            opt_value (first_group r (clean_text raw)) = VStr v ->
            substring v (clean_text raw)).
  { intros r v E. destruct (first_group r (clean_text raw)) as [g|] eqn:Eg;
      [|discriminate].
    injection E as <-. eapply MoreReFacts.first_group_piece; eauto. }
  split.
  - intros key v Hkey. unfold job_fields. rewrite Hreq. simpl in Hkey.
    destruct Hkey as [<-|[<-|[<-|[<-|[<-|[]]]]]]; cbn [lookup String.eqb Ascii.eqb Bool.eqb];
      intros E; injection E as E; eapply Hpiece; eauto.
  - eexists. split; [reflexivity|].
    etransitivity; [apply MoreParserFacts.extract_bullets_length|].
    unfold responsibilities_of.
    destruct (@JobFacts.keyword_lines_one U
                ["responsibilities"; "you will"; "you'll"]%string
                (clean_text raw) Hnl) as [-> | ->].
    + rewrite StrFacts.split_none by assumption. reflexivity.
    + reflexivity.
Qed.

(** X15.  A path whose extension, lowered, is none of ".pdf", ".docx"
    and ".txt" is read as the empty text without any reader being
    called: [_read_any] returns "", the extractors return their empty
    results and [parse] returns the unknown record with empty text. *)
Theorem parse_unsupported_extension {U : UnicodeData} {H : Host} (file_path : text) :
  let ext := Str.lower (splitext_ext file_path) in
  ext <> cp ".pdf" -> ext <> cp ".docx" -> ext <> cp ".txt" ->
  _read_any file_path = Ok []
  /\ detect_file_type file_path None = Ok unknown
  /\ extract_resume_data file_path = extract_resume_text []
  /\ extract_job_data file_path = extract_job_text []
  /\ parse file_path = Ok (unknown_record []).
Proof.
  intros ext H1 H2 H3.
  assert (Hread : _read_any file_path = Ok []).
  { unfold _read_any. fold ext.
    destruct (Str.eqb ext (cp ".pdf")) eqn:E1;
      [apply StrFacts.eqb_eq in E1; contradiction|].
    destruct (Str.eqb ext (cp ".docx")) eqn:E2;
      [apply StrFacts.eqb_eq in E2; contradiction|].
    destruct (Str.eqb ext (cp ".txt")) eqn:E3;
      [apply StrFacts.eqb_eq in E3; contradiction|].
    reflexivity. }
  split; [exact Hread|].
  unfold detect_file_type, extract_resume_data, extract_job_data, parse.
  rewrite Hread. repeat split; reflexivity.
Qed.

Lemma parse_unsupported_extension_witness :
  @_read_any ascii_only (host_with_ext (cp ".MD") job_example) (cp "notes.MD")
  = Ok []
  /\ @detect_file_type ascii_only (host_with_ext (cp ".MD") job_example)
       (cp "notes.MD") None = Ok unknown
  /\ @extract_resume_data ascii_only (host_with_ext (cp ".MD") job_example)
       (cp "notes.MD")
     = @extract_resume_text ascii_only (host_with_ext (cp ".MD") job_example) []
  /\ @extract_job_data ascii_only (host_with_ext (cp ".MD") job_example)
       (cp "notes.MD")
     = @extract_job_text ascii_only []
  /\ @parse ascii_only (host_with_ext (cp ".MD") job_example) (cp "notes.MD")
     = Ok (unknown_record []).
Proof.
  apply (@parse_unsupported_extension ascii_only
           (host_with_ext (cp ".MD") job_example) (cp "notes.MD"));
    vm_compute; discriminate.
Defined.

(** X16.  An exception of the reader (a missing file, a missing
    decoder) goes through unchanged: both extractors, the classifier
    without a text and [parse] raise it; the classifier given a text
    does not read the file at all. *)
Theorem read_error_propagates {U : UnicodeData} {H : Host} (file_path : text) (e : exn) :
  _read_any file_path = Raise e ->
  extract_resume_data file_path = Raise e
  /\ extract_job_data file_path = Raise e
  /\ detect_file_type file_path None = Raise e
  /\ parse file_path = Raise e
  /\ forall txt, detect_file_type file_path (Some txt) = Ok (classify txt).
Proof.
  intros Hread.
  unfold extract_resume_data, extract_job_data, detect_file_type, parse.
  rewrite Hread. repeat split; reflexivity.
Qed.

Lemma read_error_propagates_witness :
  @extract_resume_data ascii_only missing_host (cp "cv.txt") = Raise FileNotFoundError
  /\ @extract_job_data ascii_only missing_host (cp "cv.txt") = Raise FileNotFoundError
  /\ @detect_file_type ascii_only missing_host (cp "cv.txt") None
     = Raise FileNotFoundError
  /\ @parse ascii_only missing_host (cp "cv.txt") = Raise FileNotFoundError
  /\ forall txt,
       @detect_file_type ascii_only missing_host (cp "cv.txt") (Some txt)
       = Ok (@classify ascii_only txt).
Proof.
  apply (@read_error_propagates ascii_only missing_host (cp "cv.txt")
           FileNotFoundError).
  reflexivity.
Defined.

(** X17.  The normalized view of [parse] is a projection of the data:
    every entry is the entry of the data under the same key (the skills
    of a job under "skills_required", the contact fields and the
    requirements grouped), no default of [get] is ever used, and in
    every case its "raw_text" is the cleaned text. *)
Theorem parse_normalized {U : UnicodeData} {H : Host} (file_path x : text) :
  _read_any file_path = Ok x ->
  exists data normalized,
    parse file_path
    = Ok [ ("type", VStr (doc_type_name (classify x)));
           ("data", VDict data);
           ("normalized", VDict normalized) ]%string
    /\ lookup "raw_text" normalized = Some (VStr (clean_text x))
    /\ match classify x with
       | resume =>
           (forall k, In k ["name"; "skills"; "education"; "experience";
                            "projects"; "certifications"; "raw_text"]%string ->
                      lookup k data <> None
                      /\ lookup k normalized = lookup k data)
           /\ exists contact,
                lookup "contact" normalized = Some (VDict contact)
                /\ forall k, In k ["email"; "phone"; "linkedin"; "github"]%string ->
                             lookup k data <> None
                             /\ lookup k contact = lookup k data
       | job =>
           (forall k, In k ["title"; "company"; "location"; "responsibilities";
                            "raw_text"]%string ->
                      lookup k data <> None
                      /\ lookup k normalized = lookup k data)
           /\ lookup "skills" normalized = lookup "skills_required" data
           /\ exists reqs,
                lookup "requirements" normalized = Some (VDict reqs)
                /\ lookup "experience" reqs = lookup "experience_required" data
                /\ lookup "education" reqs = lookup "education_required" data
       | unknown => data = []
       end.
Proof.
  intros Hread.
  unfold parse, detect_file_type, extract_resume_data, extract_job_data.
  rewrite Hread. cbn [bind].
  destruct (classify x).
  - rewrite ManagerFacts.extract_resume_text_fields. cbn [bind].
    do 2 eexists. split; [reflexivity|]. split; [reflexivity|]. split.
    + intros k Hk. simpl in Hk.
      repeat (destruct Hk as [<-|Hk]; [split; [discriminate | reflexivity]|]).
      contradiction.
    + eexists. split; [reflexivity|]. intros k Hk. simpl in Hk.
      repeat (destruct Hk as [<-|Hk]; [split; [discriminate | reflexivity]|]).
      contradiction.
  - rewrite JobFacts.extract_job_text_fields. cbn [bind].
    do 2 eexists. split; [reflexivity|]. split; [reflexivity|]. split.
    + intros k Hk. simpl in Hk.
      repeat (destruct Hk as [<-|Hk]; [split; [discriminate | reflexivity]|]).
      contradiction.
    + split; [reflexivity|]. eexists. repeat split; reflexivity.
  - do 2 eexists. repeat split; reflexivity.
Qed.

Lemma parse_normalized_witness :
  exists data normalized,
    @parse ascii_only (example_host job_example) (cp "posting.txt")
    = Ok [ ("type", VStr (doc_type_name (@classify ascii_only job_example)));
           ("data", VDict data);
           ("normalized", VDict normalized) ]%string
    /\ lookup "raw_text" normalized = Some (VStr (clean_text job_example))
    /\ match @classify ascii_only job_example with
       | resume =>
           (forall k, In k ["name"; "skills"; "education"; "experience";
                            "projects"; "certifications"; "raw_text"]%string ->
                      lookup k data <> None
                      /\ lookup k normalized = lookup k data)
           /\ exists contact,
                lookup "contact" normalized = Some (VDict contact)
                /\ forall k, In k ["email"; "phone"; "linkedin"; "github"]%string ->
                             lookup k data <> None
                             /\ lookup k contact = lookup k data
       | job =>
           (forall k, In k ["title"; "company"; "location"; "responsibilities";
                            "raw_text"]%string ->
                      lookup k data <> None
                      /\ lookup k normalized = lookup k data)
           /\ lookup "skills" normalized = lookup "skills_required" data
           /\ exists reqs,
                lookup "requirements" normalized = Some (VDict reqs)
                /\ lookup "experience" reqs = lookup "experience_required" data
                /\ lookup "education" reqs = lookup "education_required" data
       | unknown => data = []
       end.
Proof.
  apply (@parse_normalized ascii_only (example_host job_example)
           (cp "posting.txt") job_example).
  reflexivity.
Defined.

(** X18.  [_extract_bullets] returns no more items than the section has
    lines; each item is a non-blank line of the section with spaces,
    '-', bullet signs and tabs stripped from both ends; it returns
    nothing exactly when every line of the section is blank; and when it
    returns more than twenty items (so not the at most twenty plain
    lines of the fallback), each of them starts with '*', or is a
    single digit, or starts with two digits. *)
Theorem extract_bullets_spec {U : UnicodeData} (section_text : text) :
  (length (_extract_bullets section_text)
   <= length (Str.split NL section_text))%nat
  /\ (forall item,
        In item (_extract_bullets section_text) ->
        exists ln,
          In ln (Str.split NL section_text) /\ nonblank ln = true
          /\ item = Str.strip_with bullet_marks ln
          /\ stripped bullet_marks item)
  /\ (_extract_bullets section_text = []
      <-> forall ln, In ln (Str.split NL section_text) -> nonblank ln = false)
  /\ ((20 < length (_extract_bullets section_text))%nat ->
      forall item,
        In item (_extract_bullets section_text) ->
        Str.startswith [42] item = true
        \/ (exists d, item = [d] /\ Str.isdigit d = true)
        \/ (exists d1 d2 more,
              item = d1 :: d2 :: more
              /\ Str.isdigit d1 = true /\ Str.isdigit d2 = true)).
Proof.
  split; [apply MoreParserFacts.extract_bullets_length|].
  unfold _extract_bullets. fold bullet_marks.
  set (lines := map (Str.strip_with bullet_marks)
                    (filter nonblank (Str.split NL section_text))).
  set (looks := fun ln : text =>
                  existsb (fun p => Str.startswith p ln) [[45]; [42]; [BULLET]]
                  || str_isdigit (firstn 2 ln)).
  assert (Hsub : forall item,
            In item (match filter looks lines with
                     | [] => firstn 20 lines
                     | _ :: _ => filter looks lines
                     end) -> In item lines).
  { intros item Hin. destruct (filter looks lines) eqn:E.
    - eapply firstn_in; eauto.
    - rewrite <- E in Hin. apply filter_In in Hin. tauto. }
  split; [|split].
  - intros item Hin. apply Hsub in Hin. apply in_map_iff in Hin.
    destruct Hin as [ln [<- Hln]]. apply filter_In in Hln.
    exists ln. repeat split; try tauto; apply StrFacts.strip_with_stripped.
  - split.
    + intros E ln Hln. destruct (nonblank ln) eqn:Enb; auto. exfalso.
      assert (Hin : In (Str.strip_with bullet_marks ln) lines).
      { apply in_map_iff. exists ln. split; auto. apply filter_In. auto. }
      destruct (filter looks lines) eqn:Ef.
      * destruct lines; [contradiction | discriminate].
      * discriminate.
    + intros Hall.
      assert (Hl : lines = []).
      { unfold lines. rewrite (MoreParserFacts.filter_none nonblank _ Hall).
        reflexivity. }
      rewrite Hl. reflexivity.
  - intros Hlen item Hin. destruct (filter looks lines) eqn:E.
    + rewrite length_firstn in Hlen. lia.
    + rewrite <- E in Hin. apply filter_In in Hin. destruct Hin as [Hl Hlooks].
      unfold looks in Hlooks. apply orb_true_iff in Hlooks.
      destruct Hlooks as [Hs|Hd].
      2:{ right. unfold str_isdigit in Hd.
          destruct item as [|d1 [|d2 more]]; [discriminate| |].
          - left. exists d1. split; auto. simpl in Hd.
            now rewrite andb_true_r in Hd.
          - right. exists d1, d2, more. simpl in Hd.
            rewrite andb_true_r in Hd. apply andb_true_iff in Hd. tauto. }
      left.
      assert (Hst : stripped bullet_marks item).
      { apply in_map_iff in Hl. destruct Hl as [ln [<- _]].
        apply StrFacts.strip_with_stripped. }
      destruct Hst as [Hst _]. destruct item as [|c item]; [discriminate|].
      simpl in Hst. unfold bullet_marks, Str.mem in Hst. simpl in Hst.
      apply orb_false_iff in Hst. destruct Hst as [_ Hst].
      apply orb_false_iff in Hst. destruct Hst as [H1 Hst].
      apply orb_false_iff in Hst. destruct Hst as [H2 _].
      cbn [existsb Str.startswith] in Hs.
      rewrite (N.eqb_sym 45 c), (N.eqb_sym BULLET c), H1, H2 in Hs.
      cbn [andb orb] in Hs. rewrite orb_false_r in Hs.
      cbn [Str.startswith]. exact Hs.
Qed.

Module OrderFacts.
Import Str StrFacts SectionFacts.

Lemma subseq_length (A : Type) (l1 l2 : list A) :
  subseq l1 l2 -> (length l1 <= length l2)%nat.
Proof. induction 1; simpl; lia. Qed.

Section WithUnicode.
Context {U : UnicodeData}.

Lemma segment_order (lines : list text) :
  forall kind acc,
    subseq (map fst (segment_spec kind acc lines)) (kind :: header_kinds lines).
Proof.
  induction lines as [|ln lines IH]; intros kind acc; cbn [segment_spec header_kinds].
  - destruct acc; simpl; repeat constructor.
  - destruct (header_kind ln) as [k|].
    + rewrite map_app. destruct acc; simpl.
      * apply subseq_skip, IH.
      * apply subseq_take, IH.
    + apply IH.
Qed.

Lemma phrases_open (variant : text -> text) :
  phrases_open_their_kind variant = true ->
  forall name hs h,
    In (name, hs) SECTION_HEADERS -> In h hs -> header_kind (variant h) = Some name.
Proof.
  unfold phrases_open_their_kind. intros Hall name hs h Hitem Hh.
  rewrite forallb_forall in Hall. specialize (Hall (name, hs) Hitem).
  cbn [fst snd] in Hall. rewrite forallb_forall in Hall. specialize (Hall h Hh).
  destruct (header_kind (variant h)) as [k|]; [|discriminate].
  apply String.eqb_eq in Hall. now subst.
Qed.

Lemma marker_score_zero (markers : list text) (t : text) :
  marker_score markers t = 0%nat
  <-> forall m, In m markers -> ~ substring m t.
Proof.
  unfold marker_score, substring. split.
  - intros E m Hm Hsub. apply contains_spec in Hsub.
    assert (Hin : In m (filter (fun m => contains m t) markers))
      by (apply filter_In; auto).
    destruct (filter (fun m => contains m t) markers); [contradiction | discriminate].
  - intros Hall. rewrite (MoreParserFacts.filter_none (fun m => contains m t) markers);
      [reflexivity|].
    intros m Hm. destruct (contains m t) eqn:E; auto.
    apply contains_spec in E. now apply Hall in E.
Qed.

Lemma marker_score_pos (markers : list text) (t : text) :
  marker_score markers t <> 0%nat -> exists m, In m markers /\ substring m t.
Proof.
  unfold marker_score. intros Hne.
  destruct (filter (fun m => contains m t) markers) as [|m l] eqn:E;
    [contradiction|].
  assert (Hin : In m (filter (fun m => contains m t) markers))
    by (rewrite E; now left).
  apply filter_In in Hin. destruct Hin as [Hm Hc].
  apply contains_spec in Hc. eauto.
Qed.

End WithUnicode.
End OrderFacts.

(** X19.  Every marker phrase of [SECTION_HEADERS], written alone on a
    line as it is, in capitals, or followed by a colon, is taken as a
    header of its own kind: no phrase is shadowed by another, and each
    phrase is a key of [header_map] with its kind as value. *)
Theorem marker_phrases_recognised {U : UnicodeData} (name : string) (hs : list text)
    (h : text) :
  In (name, hs) SECTION_HEADERS -> In h hs ->
  header_lookup h header_map = Ok name
  /\ header_kind h = Some name
  /\ header_kind (map ascii_upper h) = Some name
  /\ header_kind (h ++ [58]) = Some name
  /\ split_sections (h ++ [58; NL] ++ cp "x") = Ok [(name, cp "x")].
Proof.
  intros Hitem Hh.
  assert (H1 : forallb (fun item =>
                 forallb (fun h => match header_lookup h header_map with
                                   | Ok k => String.eqb k (fst item)
                                   | Raise _ => false
                                   end) (snd item)) SECTION_HEADERS = true)
    by (vm_compute; reflexivity).
  split.
  { rewrite forallb_forall in H1. specialize (H1 (name, hs) Hitem).
    cbn [fst snd] in H1. rewrite forallb_forall in H1. specialize (H1 h Hh).
    destruct (header_lookup h header_map) as [k|]; [|discriminate].
    apply String.eqb_eq in H1. now subst. }
  split.
  { eapply (OrderFacts.phrases_open (fun h => h));
      [vm_compute; reflexivity | exact Hitem | exact Hh]. }
  split.
  { eapply (OrderFacts.phrases_open (map ascii_upper));
      [vm_compute; reflexivity | exact Hitem | exact Hh]. }
  assert (Hcolon : header_kind (h ++ [58]) = Some name).
  { eapply (OrderFacts.phrases_open (fun h => h ++ [58]));
      [vm_compute; reflexivity | exact Hitem | exact Hh]. }
  split; [exact Hcolon|].
  assert (H2 : forallb (fun item =>
                 forallb (fun h =>
                   match split_sections (h ++ [58; NL] ++ cp "x") with
                   | Ok [(k, t)] => String.eqb k (fst item) && Str.eqb t (cp "x")
                   | _ => false
                   end) (snd item)) SECTION_HEADERS = true)
    by (vm_compute; reflexivity).
  rewrite forallb_forall in H2. specialize (H2 (name, hs) Hitem).
  cbn [fst snd] in H2. rewrite forallb_forall in H2. specialize (H2 h Hh).
  destruct (split_sections (h ++ [58; NL] ++ cp "x")) as [[|[k t] [|? ?]]|];
    try discriminate.
  apply andb_true_iff in H2. destruct H2 as [Hk Ht].
  apply String.eqb_eq in Hk. apply StrFacts.eqb_eq in Ht. now subst.
Qed.

Lemma marker_phrases_recognised_witness :
  header_lookup (cp "what you'll do") header_map = Ok "responsibilities"%string
  /\ @header_kind ascii_only (cp "what you'll do") = Some "responsibilities"%string
  /\ @header_kind ascii_only (map ascii_upper (cp "what you'll do"))
     = Some "responsibilities"%string
  /\ @header_kind ascii_only (cp "what you'll do" ++ [58])
     = Some "responsibilities"%string
  /\ @split_sections ascii_only (cp "what you'll do" ++ [58; NL] ++ cp "x")
     = Ok [("responsibilities"%string, cp "x")].
Proof.
  apply (@marker_phrases_recognised ascii_only "responsibilities"
           (map cp ["responsibilities"; "what you'll do"; "what you will do"]%string)
           (cp "what you'll do")).
  - vm_compute. auto 10.
  - vm_compute. auto.
Defined.

(** X20.  The sections come in document order: the names of the
    sections [split_sections] returns are "body" and then the kinds of
    the header lines in their order, with some left out (those whose
    section stayed empty), so there is at most one section more than
    there are header lines. *)
Theorem split_sections_order {U : UnicodeData} (txt : text) :
  exists secs,
    split_sections txt = Ok secs
    /\ subseq (map fst secs) ("body"%string :: header_kinds (content_lines txt))
    /\ (length secs <= 1 + length (header_kinds (content_lines txt)))%nat.
Proof.
  rewrite SectionFacts.split_sections_refines.
  pose proof (OrderFacts.segment_order (content_lines txt) "body" []) as Hord.
  eexists. split; [reflexivity|].
  assert (Hsub : subseq
            (map fst match segment_spec "body" [] (content_lines txt) with
                     | [] => [("body"%string,
                               match content_lines txt with [] => [] | _ => txt end)]
                     | p :: l => p :: l
                     end)
            ("body"%string :: header_kinds (content_lines txt))).
  { destruct (segment_spec "body" [] (content_lines txt)); [|exact Hord].
    simpl. repeat constructor. }
  split; [exact Hsub|].
  apply OrderFacts.subseq_length in Hsub. rewrite length_map in Hsub. exact Hsub.
Qed.

(** X21.  A document is classified unknown exactly when its lower-cased
    cleaned text holds none of the fourteen markers; a document
    classified as a job holds a job marker and one classified as a
    resume holds a resume marker. *)
Theorem classify_markers {U : UnicodeData} (raw : text) :
  let lower := Str.lower (clean_text raw) in
  (classify raw = unknown
   <-> forall m, In m (resume_markers ++ job_markers) -> ~ substring m lower)
  /\ (classify raw = job -> exists m, In m job_markers /\ substring m lower)
  /\ (classify raw = resume -> exists m, In m resume_markers /\ substring m lower).
Proof.
  intros lower.
  set (rs := marker_score resume_markers lower).
  set (js := marker_score job_markers lower).
  assert (Hdec : classify raw
                 = if (rs =? 0)%nat && (js =? 0)%nat then unknown
                   else if (js <=? rs)%nat then resume else job) by reflexivity.
  pose proof (OrderFacts.marker_score_zero resume_markers lower) as Hr.
  pose proof (OrderFacts.marker_score_zero job_markers lower) as Hj.
  fold rs in Hr. fold js in Hj.
  split; [|split].
  - rewrite Hdec. split.
    + destruct (Nat.eqb_spec rs 0) as [Er|Er]; destruct (Nat.eqb_spec js 0) as [Ej|Ej];
        cbn [andb]; try (destruct (js <=? rs)%nat; discriminate).
      intros _ m Hm. apply in_app_or in Hm. destruct Hm as [Hm|Hm].
      * now apply (proj1 Hr Er).
      * now apply (proj1 Hj Ej).
    + intros Hall.
      assert (Er : rs = 0%nat)
        by (apply Hr; intros m Hm; apply Hall, in_or_app; now left).
      assert (Ej : js = 0%nat)
        by (apply Hj; intros m Hm; apply Hall, in_or_app; now right).
      rewrite Er, Ej. reflexivity.
  - rewrite Hdec. intros E. apply OrderFacts.marker_score_pos. fold js.
    destruct (Nat.eqb_spec js 0) as [Ej|Ej]; auto.
    rewrite Ej, andb_true_r in E. cbn [Nat.leb] in E.
    destruct (rs =? 0)%nat; discriminate.
  - rewrite Hdec. intros E. apply OrderFacts.marker_score_pos. fold rs.
    destruct (Nat.eqb_spec rs 0) as [Er|Er]; auto.
    rewrite Er in E. cbn [andb] in E.
    destruct (Nat.eqb_spec js 0) as [Ej|Ej]; [discriminate|].
    destruct (Nat.leb_spec js 0); [lia | discriminate].
Qed.

Module LeftmostFacts.
Import Re ReFacts MoreReFacts.

(** [search] returns the match at the first position that has one. *)
Lemma search_from_first (r : regex) (s : text) :
  forall pv m,
    search_from r pv s = Some m ->
    exists pre s',
      s = pre ++ s'
      /\ match_at r (prev_after pv pre) s' = Some m
      /\ forall pre1 pre2,
           pre = pre1 ++ pre2 -> pre2 <> [] ->
           match_at r (prev_after pv pre1) (pre2 ++ s') = None.
Proof.
  induction s as [|c s IH]; intros pv m; simpl.
  - destruct (match_at r pv []) eqn:E; [|discriminate].
    intros Em. injection Em as <-. exists [], []. repeat split; auto.
    intros pre1 pre2 Hp Hne. symmetry in Hp. apply app_eq_nil in Hp. tauto.
  - destruct (match_at r pv (c :: s)) eqn:E.
    + intros Em. injection Em as <-. exists [], (c :: s). repeat split; auto.
      intros pre1 pre2 Hp Hne. symmetry in Hp. apply app_eq_nil in Hp. tauto.
    + intros Hs. apply IH in Hs. destruct Hs as [pre [s' [-> [Hm Hfirst]]]].
      exists (c :: pre), s'. repeat split; auto.
      intros pre1 pre2 Hp Hne. destruct pre1 as [|d pre1].
      * simpl in Hp. subst pre2. exact E.
      * injection Hp as <- Hp. now apply Hfirst.
Qed.

(** Of two prefixes of one text, the shorter is a prefix of the longer. *)
Lemma shorter_prefix (A : Type) (p1 x p2 y : list A) :
  p1 ++ x = p2 ++ y -> (length p1 < length p2)%nat ->
  exists q, q <> [] /\ p2 = p1 ++ q /\ x = q ++ y.
Proof.
  intros E Hlen. apply app_eq_app in E. destruct E as [l [[E1 E2]|[E1 E2]]].
  - subst p1. rewrite length_app in Hlen. lia.
  - exists l. repeat split; auto. intros ->. rewrite app_nil_r in E1. subst. lia.
Qed.

End LeftmostFacts.

(** X22.  [extract_email] returns the leftmost address: the piece it
    returns starts no later than any piece of the text that has the
    shape of an address. *)
Theorem extract_email_leftmost (txt e : text) :
  extract_email txt = Some e ->
  exists pre post,
    txt = pre ++ e ++ post
    /\ forall pre1 e1 post1,
         txt = pre1 ++ e1 ++ post1 -> email_shape e1 ->
         (length pre <= length pre1)%nat.
Proof.
  unfold extract_email, first_found, Re.search.
  destruct (Re.search_from EMAIL_RE None txt) as [m|] eqn:E; [|discriminate].
  intros Em. injection Em as <-.
  apply LeftmostFacts.search_from_first in E.
  destruct E as [pre [s' [-> [Hm Hfirst]]]].
  apply MoreReFacts.match_at_consumes in Hm. destruct Hm as [st' [_ [Es _]]].
  exists pre, (Re.rest st'). split; [now rewrite <- Es|].
  intros pre1 e1 post1 Htxt Hshape.
  destruct (Nat.le_gt_cases (length pre) (length pre1)) as [Hle|Hlt]; auto.
  exfalso. symmetry in Htxt.
  destruct (LeftmostFacts.shorter_prefix _ _ _ _ Htxt Hlt) as [q [Hq [Hpre Hrest]]].
  specialize (Hfirst pre1 q Hpre Hq).
  destruct (MoreReFacts.email_re_intro post1 (prev_after None pre1) Hshape)
    as [st1 Hm1].
  rewrite Hrest in Hm1. apply ReFacts.match_at_complete in Hm1.
  rewrite Hfirst in Hm1. discriminate.
Qed.

Lemma extract_email_leftmost_witness :
  exists pre post,
    cp "to a@b.cd or x@y.zz" = pre ++ cp "a@b.cd" ++ post
    /\ forall pre1 e1 post1,
         cp "to a@b.cd or x@y.zz" = pre1 ++ e1 ++ post1 -> email_shape e1 ->
         (length pre <= length pre1)%nat.
Proof.
  apply (@extract_email_leftmost (cp "to a@b.cd or x@y.zz") (cp "a@b.cd")).
  vm_compute. reflexivity.
Defined.

Module BodyFacts.
Import Str StrFacts SectionFacts MoreCleanFacts.

Lemma join_nonspace (ls : list text) :
  filter nonspace (join [NL] ls) = concat (map (filter nonspace) ls).
Proof.
  induction ls as [|p ls IH]; [reflexivity|].
  destruct ls as [|q ls].
  - simpl. now rewrite app_nil_r.
  - rewrite join_cons by discriminate.
    rewrite !filter_app, IH. reflexivity.
Qed.

Lemma blank_nonspace (p : text) : nonblank p = false -> filter nonspace p = [].
Proof.
  unfold nonblank. intros Hb. apply negb_false_iff in Hb.
  apply is_empty_true in Hb. rewrite <- strip_nonspace, Hb. reflexivity.
Qed.

Lemma content_lines_concat (parts : list text) :
  concat (map (filter nonspace) (map strip (filter nonblank parts)))
  = concat (map (filter nonspace) parts).
Proof.
  induction parts as [|p parts IH]; [reflexivity|].
  cbn [filter]. destruct (nonblank p) eqn:E.
  - cbn [map concat]. now rewrite strip_nonspace, IH.
  - cbn [map concat]. now rewrite (blank_nonspace p E), IH.
Qed.

(** The trimmed non-blank lines, joined, hold what the text holds
    besides white space. *)
Lemma content_lines_nonspace (txt : text) :
  filter nonspace (join [NL] (content_lines txt)) = filter nonspace txt.
Proof.
  unfold content_lines.
  rewrite join_nonspace, content_lines_concat, <- join_nonspace.
  now rewrite join_split.
Qed.

End BodyFacts.

(** C3, as the code has it.  On the trimmed non-blank lines of the text:
    a line is a header exactly when it is a marker phrase up to case
    (on ASCII text: equal after lower-casing), possibly followed by a
    colon that white space may separate from the phrase; when some line
    is a header the result is the segmentation of the specification
    (other lines accumulate, a section is appended only when it has
    lines), or the whole text as one "body" section when no section has
    lines; every appended section has text; a header line followed at
    once by a header line leaves no section; without header lines the
    result is one "body" section that holds what the text holds besides
    white space; the empty text gives one empty "body" section. *)
Theorem split_sections_spec {U : UnicodeData} (txt : text) :
  let lines := content_lines txt in
  (forall ln, In ln lines -> (is_header ln = true <-> header_shape ln))
  /\ (forall h body,
        forallb is_ascii body = true ->
        (ci_equal h body <-> map ascii_lower h = map ascii_lower body))
  /\ ((exists ln, In ln lines /\ is_header ln = true) ->
      split_sections txt
      = Ok match segment_spec "body" [] lines with
           | [] => [("body"%string, txt)]
           | secs => secs
           end)
  /\ Forall (fun sec => snd sec <> []) (segment_spec "body" [] lines)
  /\ (forall l1 h1 h2 l2 kind acc,
        is_header h1 = true -> is_header h2 = true ->
        segment_spec kind acc (l1 ++ h1 :: h2 :: l2)
        = segment_spec kind acc (l1 ++ h2 :: l2))
  /\ ((forall ln, In ln lines -> is_header ln = false) ->
      exists body,
        split_sections txt = Ok [("body"%string, body)]
        /\ filter nonspace body = filter nonspace txt)
  /\ split_sections [] = Ok [("body"%string, [])].
Proof.
  intros lines. split; [|split; [|split; [|split; [|split; [|split]]]]].
  - intros ln Hin.
    pose proof (SectionFacts.content_lines_good txt) as Hgood.
    rewrite Forall_forall in Hgood. destruct (Hgood ln Hin) as [_ Hs].
    rewrite <- (SectionFacts.header_line_iff Hs). unfold is_header.
    destruct (first_header header_patterns ln); simpl; split; congruence.
  - intros h body. apply SectionFacts.ci_equal_ascii.
  - intros [ln [Hin _]]. rewrite SectionFacts.split_sections_refines.
    fold lines. destruct lines; [contradiction | reflexivity].
  - apply SectionFacts.segment_nonempty;
      [apply SectionFacts.content_lines_good | constructor].
  - intros. now apply SectionFacts.segment_header_header.
  - intros Hno. exists (Str.join [NL] lines). split.
    + now apply SectionFacts.split_sections_no_header.
    + apply BodyFacts.content_lines_nonspace.
  - reflexivity.
Qed.

(** C3, the claim as written fails: the line "skills :" is taken as a
    header (the pattern allows white space before the colon) although
    it is not a marker phrase followed by nothing but a colon. *)
Lemma header_space_before_colon :
  @is_header ascii_only (cp "skills :") = true
  /\ ~ @header_shape_claimed ascii_only (cp "skills :")
  /\ @split_sections ascii_only (cp "skills :" ++ [NL] ++ cp "x")
     = Ok [("skills"%string, cp "x")].
Proof.
  split; [|split].
  - vm_compute. reflexivity.
  - intros [h [body [Hin [Hci Hsh]]]].
    apply SectionFacts.ci_equalb_spec in Hci.
    assert (Hnone : forall b, b = cp "skills :" \/ b = cp "skills " ->
              forallb (fun h => negb (@ci_equalb ascii_only h b))
                marker_phrases = true).
    { intros b [-> | ->]; vm_compute; reflexivity. }
    assert (Hb : body = cp "skills :" \/ body = cp "skills ").
    { destruct Hsh as [E|E]; [left; congruence|right].
      change (cp "skills :") with (cp "skills " ++ [58]) in E.
      apply app_inj_tail in E. symmetry. tauto. }
    specialize (Hnone body Hb). rewrite forallb_forall in Hnone.
    specialize (Hnone h Hin). rewrite Hci in Hnone. discriminate.
  - vm_compute. reflexivity.
Qed.
